(* ===== verification/_CoqProject ===== *)
-Q . S2P
Prelude.v
Names.v
Dial.v
Spec.v
Page.v
Controls.v
Keyboard.v
Dom.v
Session.v
