(* ===== verification/Prelude.v ===== *)
(** * js-clock: a verification library for [src/script.js]

    ** The program

    [src/script.js] runs a Rubik's-Clock simulator in a web page.  It keeps
    almost no state of its own: the eighteen clock faces are page elements
    whose [innerHTML] is the text "01".."12", the eight pins are checkboxes,
    and the handlers read and write them.  The parts and how they interact:
    - ids and topology ([clkNames], [btnNames], [pinNames], [isBack],
      [isCorner], [getComplementOfClk], [pinClkGraph]): string ids whose
      letters encode face, corner and spot;
    - dial arithmetic ([padTime], [incrementClk]): read the text with
      [parseInt], add the direction, wrap into 1..12, write it back;
    - the move engine ([getActiveNeighbors], [applyMove], [isSolved]): the
      pressed corner's front pin selects a pin bank, the raised pins of that
      bank select their clocks, corner clocks drag their other-face copy,
      back clocks turn the other way, then a "Solved!" alert is scheduled
      when every clock reads "12";
    - controls ([invertPins], [setPinPositions], the button [onclick]s, the
      solve and scramble buttons): call into the engine or overwrite the page;
    - keyboard ([pinMappings], [btnMappings], [keyMappingsBack],
      [toggleControllingFront], the [keydown] listener): keys select pin
      patterns and buttons, translated through a mirror when the back face is
      controlled;
    - DOM setup: [getElements] fills the [clk], [btn] and [pin] objects
      (plain objects, which inherit [Object.prototype]) from the document,
      [invertPins] and the button loops install handlers (which throws on a
      missing element), and [btn[name].click()] runs the installed
      [onclick];
    - session: the script's top-level statements run once on load
      ([controllingFront = true], [setPinPositions(1, 1, 1, 1)]), then every
      user event runs to completion; an exception ends only its handler and
      leaves the writes made before it.

    ** Files

    - [Prelude] (this file): the page-script monad [JS] (state passing;
      [TypeError] and [RangeError] exceptions carry the state reached, since
      the page is not rolled back), [for ... of] loops [jforeach]/[jforall],
      [new Set] as [js_set], loops of property assignments
      ([lookup_fold_insert]) and of handler installations ([jcheck]),
      [preserves R m] (a computation keeps a relation on the state, also when
      it throws) with the tactic [solve_preserves], shared lemmas, the hint
      databases [clock], [clock_simpl] and [preserves].
    - [Names] (Module [Names]): the ids and string tests exactly as written,
      [pinClkGraph] as a stdpp [gmap], and a typed reading of ids (Face,
      Corner, Spot with [Finite] instances); theorems that the string tests
      compute the typed classification.
    - [Dial] (Module [Dial]): JS numbers (integers or NaN), [parseInt],
      [padTime], [wrap], [nextTime] (the value step of [incrementClk]); the
      wrap law, the cyclic-group laws of the dial text, and the decimal
      round trip [parseInt(padTime(n)) = n] for [0 <= n <= 2^53].
    - [Spec] (Module [Spec]): the abstract puzzle of spec sections 3-4:
      dials [Face -> Spot -> Z], one raised face per corner, the activation
      rule, moves, solved; pointwise equivalence with [Proper] instances;
      the activation laws (a press always moves its own pin's dials; the
      all-raised and single-pin cases; a press selects a bank; corner
      coupling).
    - [Page] (Module [Page]): the page state (maps of [innerHTML] and
      [checked] by element id, the controlled side, the face outlines, which
      may be missing, scheduled alerts) and the engine, with [pin[n]]
      answering the names inherited from [Object.prototype]; the relation
      [represents] between a page and an abstract puzzle, and the refinement
      theorems: [getActiveNeighbors] returns the activation set, [applyMove]
      implements [Spec.applyMove], its loop may visit the clocks in any
      order, and a missing clock stops it midway; [sameShape]: no handler
      creates or removes an element.
    - [Controls] (Module [Controls]): pin clicks with the [invertPins]
      handlers, [setPinPositions], button dispatch, solve, and scramble with
      [Math.floor(Math.random() * 12) + 1] on binary64 doubles; each
      handler's effect on the abstract puzzle.
    - [Keyboard] (Module [Keyboard]): the key tables, [keydown] and
      [toggleControllingFront]; the back translation is an involution and a
      mirror; a button key makes its move, mirrored from the back; the space
      bar switches the controlled face; a key never throws; every pin
      setting has a key.
    - [Dom] (Module [Dom]): the document, [getElements], the page the
      handlers see, the whole top-level run [loadScript] and the [onclick]
      dispatch [click] with a bounded stack ([stackFrames]); loading throws
      exactly at the first missing pin or button; the dispatch needs two
      frames.
    - [Session] (Module [Session]): events (a button click goes through
      [Dom.click]), the step relation from any ready document, and
      reachability; what loading does on every ready document; by
      induction, every reachable page represents a puzzle (clock texts well
      formed, exactly one pin per corner) with all its elements, and no
      possible event throws; moves on strings that are not corners.

    ** What the theorems show

    The central result is a forward simulation: [Page.represents p P] is
    preserved by every handler, with the abstract operation the spec
    describes (C1, C6-C9, C27), and holds on the page loaded from any ready
    document (C31), hence on every reachable page (C3-C5).  The abstract
    activation laws (C13, C14, C16, C18, C22) then hold of the program, and
    [getActiveNeighbors] computes exactly the activation set (C2).  Bounds:
    a dial step always yields "01".."12" or "NaN" (C11); on well-formed
    text the step is addition modulo 12 (C10); a scramble writes values in
    1..12 even though [r * 12] is rounded (C9); [padTime] is read back by
    [parseInt] (C21).  Error behaviour: loading throws at the first missing
    element it installs a handler on (C12); a move on a string that is no
    corner fails before any write (C15), except for "ropertyIsEnumerable",
    which the prototype of [pin] turns into a move of the back bank (C23);
    a missing clock makes a move fail midway (C17).  The move loop's order
    does not matter (C19); a back button is its front counterpart (C24);
    the key tables mirror the puzzle (C28-C30); every pin setting is one
    key away (C20) and the space bar switches the controlled face (C32).

    ** Bounds, fuel and finiteness

    The only recursion that needs fuel is the [onclick] dispatch, whose
    fuel is the JS call stack: a back button's handler clicks a front
    button, so two frames suffice and any larger stack gives the same
    result ([Dom.click_fuel]); a session event starts with
    [Dom.stackFrames] = 1000 frames.  Every loop is over a fixed list (18
    clocks, 8 pins, 16 buttons).  Several theorems are proved by evaluating
    finitely many cases (16 pin settings times 4 corners, 2 controlled
    sides); [vm_compute] does that work.  Integers are unbounded [Z]: the
    script's numbers come from [parseInt] of a dial text, [+1]/[-1] and the
    values 1..12, all far below 2^53, where doubles are exact integers, so
    the comparisons with 1 and 12 give the same answers.  [Math.random()]
    is an argument [nat -> double]: each draw is a binary64 value
    [mant * 2^expo] in [0, 1), the product by 12 is rounded to nearest at 53
    bits ([Controls.round53], checked against the Standard Library's
    [SFmul]), and [Math.floor] is a shift.

    ** Not modelled

    Rendering and focus (how the browser paints [innerHTML] and the border
    colours, [blur()]), the 100 ms delay of the alert (an alert is recorded
    when scheduled), the registration of the [keydown] listener (which
    cannot fail), and the HTML page itself, which is not under [src/]
    ([Session.initialDoc] is taken from the spec: every element present,
    every clock at "12"). *)

From stdpp Require Export base list gmap strings.
From Stdlib Require Export ZArith Lia Ascii String.

(** ** Exceptions and the page-script monad

    The script runs synchronously inside event handlers.  Each handler reads
    and writes the page (modelled as a state [S]) and may throw: reading a
    property of [undefined] or spreading [undefined] raises a [TypeError],
    and a call chain deeper than the engine's stack raises a [RangeError].
    A handler is therefore a function from the state to either an
    exception or a value, each with the state reached: the page is not
    rolled back when a handler throws, so the writes made before the throw
    stay on the page. *)

Inductive exn : Type :=
| TypeError (what : string)
| RangeError (what : string).

Definition JS (S A : Type) : Type := S -> (exn * S) + (A * S).

Definition jret {S A} (a : A) : JS S A := fun s => inr (a, s).
Definition jthrow {S A} (e : exn) : JS S A := fun s => inl (e, s).
Definition jbind {S A B} (m : JS S A) (k : A -> JS S B) : JS S B :=
  fun s => match m s with
           | inl es => inl es
           | inr (a, s') => k a s'
           end.
Definition jget {S} : JS S S := fun s => inr (s, s).
Definition jput {S} (s : S) : JS S unit := fun _ => inr (tt, s).

(** A JS value that may be [undefined]: reading through it throws. *)
Definition jdefined {S A} (what : string) (o : option A) : JS S A :=
  match o with
  | Some a => jret a
  | None => jthrow (TypeError what)
  end.

Declare Scope js_scope.
Delimit Scope js_scope with js.
Notation "x <- m ;; k" := (jbind m (fun x => k))
  (at level 60, m at next level, right associativity) : js_scope.
Open Scope js_scope.

(** [for (let x of l) { f(x); }] *)
Fixpoint jforeach {S A} (f : A -> JS S unit) (l : list A) : JS S unit :=
  match l with
  | [] => jret tt
  | x :: l' => _ <- f x ;; jforeach f l'
  end.

(** [for (let x of l) { if (!p(x)) return false; } return true;]
    for a test [p] that may throw. *)
Fixpoint jforall {S A} (p : A -> JS S bool) (l : list A) : JS S bool :=
  match l with
  | [] => jret true
  | x :: l' => b <- p x ;; if b then jforall p l' else jret false
  end.

(** ** [new Set(l)], iterated in insertion order

    A JS [Set] built from an array keeps the first occurrence of each
    element, in the order of the array; [for ... of] visits it in that
    order. *)
Fixpoint js_set_go `{EqDecision A} (seen : list A) (l : list A) : list A :=
  match l with
  | [] => []
  | x :: l' =>
      if decide (x ∈ seen) then js_set_go seen l'
      else x :: js_set_go (x :: seen) l'
  end.

Definition js_set `{EqDecision A} (l : list A) : list A := js_set_go [] l.

Create HintDb clock discriminated.
Create Rewrite HintDb clock_simpl.

(** ** Generic lemmas *)

Lemma jbind_ext {S A B} (m1 m2 : JS S A) (k1 k2 : A -> JS S B) (s : S) :
  (forall s, m1 s = m2 s) -> (forall a s, k1 a s = k2 a s) -> jbind m1 k1 s = jbind m2 k2 s.
Proof. intros Hm Hk. unfold jbind. rewrite Hm. destruct (m2 s) as [|[a s']]; auto. Qed.

Lemma jbind_assoc {S A B C} (m : JS S A) (k1 : A -> JS S B) (k2 : B -> JS S C) (s : S) :
  jbind (jbind m k1) k2 s = jbind m (fun a => jbind (k1 a) k2) s.
Proof. unfold jbind. by destruct (m s) as [|[a s']]. Qed.

Lemma concat_singletons {A} (l : list A) : List.concat ((fun x => [x]) <$> l) = l.
Proof. induction l as [|x l IH]; [done|]. rewrite fmap_cons. simpl. by rewrite IH. Qed.

Lemma jbind_err {S A B} (m : JS S A) (k : A -> JS S B) (s : S) (e : exn) (s' : S) :
  m s = inl (e, s') -> jbind m k s = inl (e, s').
Proof. intros H. unfold jbind. by rewrite H. Qed.

Lemma jbind_ok {S A B} (m : JS S A) (k : A -> JS S B) (s : S) (a : A) (s' : S) :
  m s = inr (a, s') -> jbind m k s = k a s'.
Proof. intros H. unfold jbind. by rewrite H. Qed.

Section JsSet.
Context `{EqDecision A}.

Lemma elem_of_js_set_go (seen l : list A) (x : A) :
    x ∈ js_set_go seen l <-> x ∈ l /\ x ∉ seen.
  Proof.
    revert seen. induction l as [|y l IH]; intros seen; simpl.
    - set_solver.
    - rewrite elem_of_cons. case_decide; rewrite ?elem_of_cons, IH, ?elem_of_cons;
        destruct (decide (x = y)); naive_solver.
  Qed.

Lemma js_set_go_NoDup (seen l : list A) : NoDup (js_set_go seen l).
  Proof.
    revert seen. induction l as [|y l IH]; intros seen; simpl.
    - constructor.
    - case_decide; [done|]. constructor; [|done].
      rewrite elem_of_js_set_go. set_solver.
  Qed.

Lemma elem_of_js_set (l : list A) (x : A) : x ∈ js_set l <-> x ∈ l.
  Proof. unfold js_set. rewrite elem_of_js_set_go. set_solver. Qed.

Lemma js_set_NoDup (l : list A) : NoDup (js_set l).
  Proof. apply js_set_go_NoDup. Qed.
End JsSet.

#[export] Hint Resolve js_set_NoDup : clock.

(** A loop whose body is a total state update runs as a left fold. *)
Section Foreach.
Context {S A : Type} (g : A -> S -> S).

Lemma jforeach_pure (l : list A) (s : S) :
    jforeach (fun x => fun s => inr (tt, g x s)) l s
    = inr (tt, fold_left (fun s x => g x s) l s).
  Proof.
    revert s. induction l as [|x l IH]; intros s; simpl; [done|].
    apply IH.
  Qed.

  (** Updates of distinct elements commute: then the order in which a
      duplicate-free collection is visited does not matter. *)
Hypothesis g_comm : forall x y s, x <> y -> g x (g y s) = g y (g x s).

Lemma fold_left_comm_cons (l : list A) (x : A) (s : S) :
    x ∉ l ->
    fold_left (fun s y => g y s) l (g x s) = g x (fold_left (fun s y => g y s) l s).
  Proof.
    revert s. induction l as [|y l IH]; intros s Hx; simpl; [done|].
    rewrite not_elem_of_cons in Hx. destruct Hx as [Hxy Hx].
    rewrite g_comm by done. by apply IH.
  Qed.

Lemma fold_left_perm (l l' : list A) (s : S) :
    NoDup l -> l ≡ₚ l' ->
    fold_left (fun s y => g y s) l s = fold_left (fun s y => g y s) l' s.
  Proof.
    intros Hnd Hp. revert s. induction Hp as [|x l l' Hp IH|x y l|l l' l'' H1 IH1 H2 IH2];
      intros s; simpl.
    - done.
    - apply NoDup_cons in Hnd as [_ Hnd]. by apply IH.
    - apply NoDup_cons in Hnd as [Hy Hnd]. rewrite elem_of_cons in Hy.
      rewrite g_comm; [done|]. intros ->. apply Hy. by left.
    - rewrite IH1 by done. apply IH2. by rewrite <- H1.
  Qed.
End Foreach.

(** ** Maps built by a loop of assignments

    [for (let k of l) { obj[k] = h(k); }] on a map [m0]. *)
Lemma lookup_fold_insert `{Countable K} {V} (h : K -> V) (l : list K) (m0 : gmap K V) k :
  fold_left (fun m x => <[x := h x]> m) l m0 !! k =
  if decide (k ∈ l) then Some (h k) else m0 !! k.
Proof.
  revert m0. induction l as [|x l IH]; intros m0; cbn [fold_left].
  - case_decide; [set_solver|done].
  - rewrite IH, lookup_insert. repeat case_decide; subst; first [done | set_solver].
Qed.

(** ** Required elements

    [jcheck ok err l] throws [err y] for the first [y] of [l] that is not
    [ok] and otherwise does nothing: the effect of a sequence of
    assignments [y.onclick = ...] on elements that may be null. *)
Definition jcheck {S B} (ok : B -> bool) (err : B -> exn) (l : list B) : JS S unit :=
  fun s => match list_find (fun y => ok y = false) l with
           | Some (_, y) => inl (err y, s)
           | None => inr (tt, s)
           end.

Section Checks.
Context {S B : Type} (ok : B -> bool) (err : B -> exn).

Lemma jcheck_app (l1 l2 : list B) (s : S) :
  (_ <- jcheck ok err l1 ;; jcheck ok err l2) s = jcheck ok err (l1 ++ l2) s.
Proof.
  unfold jcheck, jbind. destruct (list_find _ l1) as [[i y]|] eqn:E1.
  - by rewrite (list_find_app_l _ _ _ _ _ E1).
  - rewrite (list_find_app_r _ _ _ E1). by destruct (list_find _ l2) as [[i y]|].
Qed.

Lemma jforeach_jcheck {A} (g : A -> list B) (f : A -> JS S unit) (l : list A) (s : S) :
  (forall x s, x ∈ l -> f x s = jcheck ok err (g x) s) ->
  jforeach f l s = jcheck ok err (List.concat (g <$> l)) s.
Proof.
  intros Hf. induction l as [|x l IH]; [done|]. simpl.
  rewrite <- jcheck_app. unfold jbind. rewrite Hf by set_solver.
  unfold jcheck at 1 2. destruct (list_find _ (g x)) as [[i y]|]; [done|].
  apply IH. intros; apply Hf; set_solver.
Qed.
End Checks.

(** ** Computations that preserve a relation on the state

    [preserves R m]: whatever [m] does, thrown or returned, the state it
    reaches is related by [R] to the state it started from.  With [R] a
    preorder this is closed under the combinators, so it is proved for a
    handler by unfolding it down to its reads and writes. *)
Definition result_state {S A} (r : (exn * S) + (A * S)) : S :=
  match r with inl (_, s) => s | inr (_, s) => s end.

Section Preserves.
Context {S : Type} (R : relation S) `{!PreOrder R}.

(** A record, so that unification never unfolds it. *)
Record preserves {A} (m : JS S A) : Prop :=
  Preserves { preserves_at : forall s, R s (result_state (m s)) }.

Lemma preserves_ret {A} (a : A) : preserves (jret a).
Proof. constructor. intros s. simpl. reflexivity. Qed.

Lemma preserves_throw {A} e : preserves (A:=A) (jthrow e).
Proof. constructor. intros s. simpl. reflexivity. Qed.

Lemma preserves_get : preserves jget.
Proof. constructor. intros s. simpl. reflexivity. Qed.

Lemma preserves_jdefined {A} what (o : option A) : preserves (jdefined what o).
Proof. destruct o; [apply preserves_ret|apply preserves_throw]. Qed.

Lemma preserves_jcheck {B} ok err (l : list B) : preserves (jcheck ok err l).
Proof.
  constructor. intros s. unfold jcheck. destruct (list_find _ l) as [[]|]; simpl; reflexivity.
Qed.

Lemma preserves_bind {A B} (m : JS S A) (k : A -> JS S B) :
  preserves m -> (forall a, preserves (k a)) -> preserves (jbind m k).
Proof.
  intros [Hm] Hk. constructor. intros s. specialize (Hm s). unfold jbind.
  destruct (m s) as [[e s']|[a s']]; simpl in *; [done|].
  etrans; [exact Hm|apply Hk].
Qed.

Lemma preserves_foreach {A} (f : A -> JS S unit) (l : list A) :
  (forall x, preserves (f x)) -> preserves (jforeach f l).
Proof.
  intros Hf. induction l as [|x l IH]; simpl; [apply preserves_ret|].
  apply preserves_bind; [apply Hf|done].
Qed.

Lemma preserves_forall {A} (p : A -> JS S bool) (l : list A) :
  (forall x, preserves (p x)) -> preserves (jforall p l).
Proof.
  intros Hp. induction l as [|x l IH]; simpl; [apply preserves_ret|].
  apply preserves_bind; [apply Hp|]. intros []; [done|apply preserves_ret].
Qed.

(** A write that the relation allows, alone or followed by more work. *)
Lemma preserves_update (f : S -> S) :
  (forall s, R s (f s)) -> preserves (s <- jget ;; jput (f s)).
Proof. intros Hf. constructor. intros s. apply Hf. Qed.

Lemma preserves_update_then {B} (f : S -> S) (k : JS S B) :
  (forall s, R s (f s)) -> preserves k -> preserves (s <- jget ;; _ <- jput (f s) ;; k).
Proof. intros Hf [Hk]. constructor. intros s. simpl. etrans; [apply Hf|apply Hk]. Qed.
End Preserves.

Create HintDb preserves discriminated.
#[export] Hint Constants Opaque : preserves.
#[export] Hint Projections Opaque : preserves.
#[export] Hint Resolve preserves_ret preserves_throw preserves_get preserves_jdefined
  preserves_jcheck : preserves.

(** Unfold a handler into its combinators, one syntactic step at a time;
    the primitive reads and writes are left to the [preserves] hints.
    [refine] resolves the preorder instance of each combinator lemma. *)
Ltac preserves_step :=
  first
    [ solve [eauto with preserves]
    | lazymatch goal with
      | |- preserves _ (jbind jget (fun s => jput (@?f s))) =>
          refine (preserves_update _ _ _); intros ?
      | |- preserves _ (jbind jget (fun s => jbind (jput (@?f s)) (fun _ => _))) =>
          refine (preserves_update_then _ _ _ _ _); [intros ?|]
      | |- preserves _ (jbind _ _) => refine (preserves_bind _ _ _ _ _); [|intros ?]
      | |- preserves _ (jforeach _ _) => refine (preserves_foreach _ _ _ _); intros ?
      | |- preserves _ (jforall _ _) => refine (preserves_forall _ _ _ _); intros ?
      | |- preserves _ (let _ := _ in _) => cbv zeta
      | |- preserves _ (if ?b then _ else _) => destruct b
      | |- preserves _ (match ?x with _ => _ end) => destruct x
      end ].

Ltac solve_preserves := repeat preserves_step.
