(* ===== verification/Names.v ===== *)
(** * Names: the identifiers of [src/script.js] and the topology they encode

    The script names every element by a string id: clocks ("cul", ...,
    "bcc"), buttons ("bulm", ..., "bbdlp") and pins ("pul", ...,
    "bpdl").  The move logic works on these strings directly: [isBack] and
    [isCorner] test characters and lengths, [getComplementOfClk] adds or
    strips a "b", and [pinClkGraph] is an object keyed by pin id.  This
    file holds those definitions as the script writes them, then a typed
    reading of the ids (faces, corners, the nine dial spots of a face) and
    the theorems that the string tests compute the typed classification. *)

From S2P Require Import Prelude.
From stdpp Require Import finite.

Module Names.

(** ** The ids, [script.js] 49-59 *)

Definition clkNames : list string :=
  ["cul"; "cur"; "cdr"; "cdl"; "cu"; "cr"; "cd"; "cl"; "cc";
   "bcul"; "bcur"; "bcdr"; "bcdl"; "bcu"; "bcr"; "bcd"; "bcl"; "bcc"].

Definition btnNames : list string :=
  ["bulm"; "bulp"; "burm"; "burp"; "bdrm"; "bdrp"; "bdlm"; "bdlp";
   "bbulm"; "bbulp"; "bburm"; "bburp"; "bbdrm"; "bbdrp"; "bbdlm"; "bbdlp"].

Definition pinNames : list string :=
  ["pul"; "pur"; "pdr"; "pdl"; "bpul"; "bpur"; "bpdr"; "bpdl"].

(** ** JS string primitives used by the script *)

(** [s[i] === c]: an index out of range reads [undefined], which equals
    no character. *)
Definition char_is (s : string) (i : nat) (c : ascii) : bool :=
  bool_decide (String.get i s = Some c).

(** [s.slice(b, e)] for [b <= e]; like JS, [substring] clamps at the end. *)
Definition slice (b e : nat) (s : string) : string := substring b (e - b) s.

(** [s.slice(b)] *)
Definition slice_from (b : nat) (s : string) : string :=
  substring b (String.length s - b) s.

(** ** Classification of clock ids, [script.js] 86-92 and 148-154 *)

Definition isBack (clkName : string) : bool := char_is clkName 0 "b"%char.

Definition isCorner (clkName : string) : bool :=
  (Nat.eqb (String.length clkName) 3 && char_is clkName 0 "c"%char)
  || Nat.eqb (String.length clkName) 4.

Definition getComplementOfClk (clkName : string) : string :=
  if isBack clkName then slice_from 1 clkName else String.append "b" clkName.

(** ** The pin-to-clock graph, [script.js] 133-146

    [pinClkGraph[pinName]] is [undefined] for an id that is not a key. *)

Definition pinClkGraph : gmap string (list string) :=
  list_to_map
    [("pul", ["cul"; "cu"; "cc"; "cl"]);
     ("pur", ["cu"; "cur"; "cr"; "cc"]);
     ("pdr", ["cc"; "cr"; "cdr"; "cd"]);
     ("pdl", ["cl"; "cc"; "cd"; "cdl"]);
     ("bpul", ["bcul"; "bcu"; "bcc"; "bcl"]);
     ("bpur", ["bcu"; "bcur"; "bcr"; "bcc"]);
     ("bpdr", ["bcc"; "bcr"; "bcdr"; "bcd"]);
     ("bpdl", ["bcl"; "bcc"; "bcd"; "bcdl"])].

Definition getNeighborsOfPin (pinName : string) : option (list string) :=
  pinClkGraph !! pinName.

(** ** Typed reading of the ids

    A clock id is a face prefix ("" or "b"), the letter "c" and a spot
    tag; a pin id is a face prefix, "p" and a corner tag; a button id is a
    face prefix, "b", a corner tag and "m"/"p" for the direction. *)

Inductive Face := Front | Back.
Inductive Corner := UL | UR | DR | DL.
Inductive Spot := SUL | SUR | SDR | SDL | SU | SR | SD | SL | SC.

#[export] Instance Face_eq_dec : EqDecision Face.
Proof. solve_decision. Defined.
#[export] Instance Corner_eq_dec : EqDecision Corner.
Proof. solve_decision. Defined.
#[export] Instance Spot_eq_dec : EqDecision Spot.
Proof. solve_decision. Defined.

#[export] Program Instance Face_finite : Finite Face := {| enum := [Front; Back] |}.
Next Obligation. repeat constructor; set_solver. Qed.
Next Obligation. intros []; set_solver. Qed.
#[export] Program Instance Corner_finite : Finite Corner := {| enum := [UL; UR; DR; DL] |}.
Next Obligation. repeat constructor; set_solver. Qed.
Next Obligation. intros []; set_solver. Qed.
#[export] Program Instance Spot_finite : Finite Spot :=
  {| enum := [SUL; SUR; SDR; SDL; SU; SR; SD; SL; SC] |}.
Next Obligation. repeat constructor; set_solver. Qed.
Next Obligation. intros []; set_solver. Qed.

Definition opposite (f : Face) : Face :=
  match f with Front => Back | Back => Front end.

Definition spotOfCorner (c : Corner) : Spot :=
  match c with UL => SUL | UR => SUR | DR => SDR | DL => SDL end.

Definition isCornerSpot (s : Spot) : bool :=
  match s with SUL | SUR | SDR | SDL => true | _ => false end.

Definition facePrefix (f : Face) : string :=
  match f with Front => "" | Back => "b" end.

Definition cornerTag (c : Corner) : string :=
  match c with UL => "ul" | UR => "ur" | DR => "dr" | DL => "dl" end.

Definition spotTag (s : Spot) : string :=
  match s with
  | SUL => "ul" | SUR => "ur" | SDR => "dr" | SDL => "dl"
  | SU => "u" | SR => "r" | SD => "d" | SL => "l" | SC => "c"
  end.

Definition clkName (f : Face) (s : Spot) : string :=
  String.append (facePrefix f) (String.append "c" (spotTag s)).

Definition pinName (f : Face) (c : Corner) : string :=
  String.append (facePrefix f) (String.append "p" (cornerTag c)).

(** The dials each pin governs, in the order of [pinClkGraph]: its corner,
    the two flanking edges and the center. *)
Definition pinSpots (c : Corner) : list Spot :=
  match c with
  | UL => [SUL; SU; SC; SL]
  | UR => [SU; SUR; SR; SC]
  | DR => [SC; SR; SDR; SD]
  | DL => [SL; SC; SD; SDL]
  end.

Definition allDials : list (Face * Spot) := enum (Face * Spot).

Definition pinOfName (n : string) : option (Face * Corner) :=
  (λ '(_, fc), fc) <$> list_find (λ fc, pinName fc.1 fc.2 = n) (enum (Face * Corner)).

(** ** Theorems: the string tests compute the typed classification *)

Lemma clkNames_enum : clkNames = (λ fs, clkName fs.1 fs.2) <$> allDials.
Proof. reflexivity. Qed.

Lemma pinNames_enum :
  pinNames = (λ fc, pinName fc.1 fc.2) <$> enum (Face * Corner).
Proof. reflexivity. Qed.

Lemma clkName_inj f1 s1 f2 s2 : clkName f1 s1 = clkName f2 s2 -> f1 = f2 /\ s1 = s2.
Proof. destruct f1, s1, f2, s2; cbv; intros H; done || discriminate H. Qed.

Lemma pinName_inj f1 c1 f2 c2 : pinName f1 c1 = pinName f2 c2 -> f1 = f2 /\ c1 = c2.
Proof. destruct f1, c1, f2, c2; cbv; intros H; done || discriminate H. Qed.

Lemma pinOfName_pinName f c : pinOfName (pinName f c) = Some (f, c).
Proof. destruct f, c; reflexivity. Qed.

Lemma elem_of_clkNames n : n ∈ clkNames <-> exists f s, n = clkName f s.
Proof.
  rewrite clkNames_enum, list_elem_of_fmap. split.
  - intros [[f s] [-> _]]. eauto.
  - intros (f & s & ->). exists (f, s). split; [done|]. apply elem_of_enum.
Qed.

Lemma elem_of_pinNames n : n ∈ pinNames <-> exists f c, n = pinName f c.
Proof.
  rewrite pinNames_enum, list_elem_of_fmap. split.
  - intros [[f c] [-> _]]. eauto.
  - intros (f & c & ->). exists (f, c). split; [done|]. apply elem_of_enum.
Qed.

Lemma clkNames_NoDup : NoDup clkNames.
Proof. rewrite clkNames_enum. apply NoDup_fmap_2_strong; [|apply NoDup_enum].
  intros [f1 s1] [f2 s2] _ _ H. simpl in H. apply clkName_inj in H as [-> ->]. done. Qed.

Lemma isBack_clkName f s : isBack (clkName f s) = bool_decide (f = Back).
Proof. destruct f, s; reflexivity. Qed.

(** C25: [isCorner] (a length-and-first-letter test on the id) holds exactly for
    the ids of the eight corner dials, front and back. *)
Theorem isCorner_clkName f s : isCorner (clkName f s) = isCornerSpot s.
Proof. destruct f, s; reflexivity. Qed.

(** C26: [getComplementOfClk] maps the id of every dial to the id of the same
    spot on the other face; it is total, edges and center included. *)
Theorem getComplementOfClk_clkName f s :
  getComplementOfClk (clkName f s) = clkName (opposite f) s.
Proof. destruct f, s; reflexivity. Qed.

Lemma getNeighborsOfPin_pinName f c :
  getNeighborsOfPin (pinName f c) = Some (clkName f <$> pinSpots c).
Proof. destruct f, c; reflexivity. Qed.

#[export] Hint Rewrite isBack_clkName getNeighborsOfPin_pinName : clock_simpl.

End Names.
