(* ===== verification/Dial.v ===== *)
(** * Dial: the text of one clock face and its arithmetic

    A clock's value lives in the page as the [innerHTML] of its element:
    the strings "01" ... "12" written by [padTime].  [incrementClk]
    ([script.js] 101-112) reads it back with [parseInt], adds the
    direction, wraps into 1..12 and writes it with [padTime].  This file
    models the JS numbers involved (integers or NaN), [parseInt] on a
    string, [padTime] and the read-add-wrap-write step [nextTime], and
    proves the wrap law: from a well-formed dial a step of +1 or -1 is
    addition modulo 12, the result is again well-formed, and twelve steps
    return to the start; and [parseInt] reads back what [padTime] prints
    for every integer [0 <= n <= 2^53], the range where integers are
    doubles and JS prints them in plain decimal. *)

From S2P Require Import Prelude.
From Stdlib Require Import DecimalString DecimalZ.

Module Dial.
Local Open Scope Z_scope.

(** ** JS numbers as the script produces them

    [parseInt] yields an integer or [NaN]; the script only adds integers
    to it and compares it with integer literals.  Integers are kept
    exact: the comparisons the script makes give the same answer as on
    doubles for every value [parseInt] can return (a too large literal
    compares above 12 either way). *)
Inductive num := Int (z : Z) | NaN.

#[export] Instance num_eq_dec : EqDecision num.
Proof. solve_decision. Defined.

Definition num_add (a : num) (d : Z) : num :=
  match a with Int z => Int (z + d) | NaN => NaN end.

(** [a > b] and [a < b]: every comparison with NaN is false. *)
Definition num_gt (a : num) (b : Z) : bool :=
  match a with Int z => bool_decide (b < z)%Z | NaN => false end.
Definition num_lt (a : num) (b : Z) : bool :=
  match a with Int z => bool_decide (z < b)%Z | NaN => false end.

(** [String(n)]: decimal digits, a leading "-" for negatives.  This is
    what JS prints for every integer below [10^21] in magnitude (from
    [10^21] on it switches to the form "1e+21"), so it is exact on the
    range [|n| <= 2^53] where every integer is a double; the script only
    prints the values 1..12 that [wrap] and the scramble produce, and NaN. *)
Definition num_to_string (a : num) : string :=
  match a with
  | Int z => NilZero.string_of_int (Z.to_int z)
  | NaN => "NaN"
  end.

(** ** [parseInt(s)] with no radix

    Leading white space is skipped, then an optional sign, then a "0x" or
    "0X" prefix selects radix 16; the longest prefix of digits of the
    radix is read, and no digit at all gives NaN. *)

Definition is_ws (c : ascii) : bool :=
  let n := nat_of_ascii c in bool_decide (n = 32 \/ 9 <= n <= 13)%nat.

Fixpoint trim_start (s : string) : string :=
  match s with
  | String c r => if is_ws c then trim_start r else s
  | EmptyString => EmptyString
  end.

Definition digit_val (radix : Z) (c : ascii) : option Z :=
  let n := Z.of_nat (nat_of_ascii c) in
  let v := if bool_decide (48 <= n <= 57)%Z then Some (n - 48)%Z
           else if bool_decide (97 <= n <= 122)%Z then Some (n - 87)%Z
           else if bool_decide (65 <= n <= 90)%Z then Some (n - 55)%Z
           else None in
  match v with
  | Some d => if bool_decide (d < radix)%Z then Some d else None
  | None => None
  end.

(** Horner evaluation of the longest digit prefix; [acc] is [None] while
    no digit has been read. *)
Fixpoint parse_digits (radix : Z) (acc : option Z) (s : string) : option Z :=
  match s with
  | String c r =>
      match digit_val radix c with
      | Some d => parse_digits radix (Some (default 0 acc * radix + d)%Z) r
      | None => acc
      end
  | EmptyString => acc
  end.

Definition parseInt (s : string) : num :=
  let s1 := trim_start s in
  let '(sign, s2) :=
    match s1 with
    | String "-" r => ((-1)%Z, r)
    | String "+" r => (1%Z, r)
    | _ => (1%Z, s1)
    end in
  let '(radix, s3) :=
    match s2 with
    | String "0" (String "x" r) | String "0" (String "X" r) => (16%Z, r)
    | _ => (10%Z, s2)
    end in
  match parse_digits radix None s3 with
  | Some v => Int (sign * v)
  | None => NaN
  end.

(** ** [padTime], [script.js] 94-99

    The second branch returns the number itself; assigning it to
    [innerHTML] converts it to its decimal string. *)
Definition padTime (num : num) : string :=
  if num_lt num 10 then String.append "0" (num_to_string num)
  else num_to_string num.

(** ** The value step of [incrementClk], [script.js] 105-111 *)

(** [if (newNum > 12) newNum = 1; else if (newNum < 1) newNum = 12;] *)
Definition wrap (newNum : num) : num :=
  if num_gt newNum 12 then Int 1
  else if num_lt newNum 1 then Int 12
  else newNum.

(** [padTime(wrap(parseInt(innerHTML) + direction))] *)
Definition nextTime (inner : string) (direction : Z) : string :=
  padTime (wrap (num_add (parseInt inner) direction)).

(** ** Well-formed dial text *)

(** The text of a dial showing [v]. *)
Definition dialText (v : Z) : string := padTime (Int v).

Definition dialValues : list Z := [1; 2; 3; 4; 5; 6; 7; 8; 9; 10; 11; 12]%Z.

(** The text of a dial is well formed when it is [dialText v] for some
    [v] in 1..12. *)
Definition validDial (inner : string) : Prop :=
  exists v, (1 <= v <= 12)%Z /\ inner = dialText v.

(** The value a dial shows, counted modulo 12 with 12 as 0. *)
Definition step12 (v d : Z) : Z := ((v - 1 + d) mod 12 + 1)%Z.

(** Horner evaluation of a little decimal digit list, most significant
    digit first, as [parse_digits] reads it. *)
Fixpoint horner (a : Z) (d : Decimal.uint) : Z :=
  match d with
  | Decimal.Nil => a
  | Decimal.D0 d => horner (a * 10) d
  | Decimal.D1 d => horner (a * 10 + 1) d
  | Decimal.D2 d => horner (a * 10 + 2) d
  | Decimal.D3 d => horner (a * 10 + 3) d
  | Decimal.D4 d => horner (a * 10 + 4) d
  | Decimal.D5 d => horner (a * 10 + 5) d
  | Decimal.D6 d => horner (a * 10 + 6) d
  | Decimal.D7 d => horner (a * 10 + 7) d
  | Decimal.D8 d => horner (a * 10 + 8) d
  | Decimal.D9 d => horner (a * 10 + 9) d
  end.

Definition is_digit (c : ascii) : bool := bool_decide (48 <= nat_of_ascii c <= 57)%nat.

(** ** Lemmas *)

Lemma dial_cases (v : Z) :
  (1 <= v <= 12)%Z ->
  v = 1 \/ v = 2 \/ v = 3 \/ v = 4 \/ v = 5 \/ v = 6 \/
  v = 7 \/ v = 8 \/ v = 9 \/ v = 10 \/ v = 11 \/ v = 12.
Proof. lia. Qed.

(** Case analysis on a dial value in 1..12: twelve concrete goals. *)
Ltac dial_enum v :=
  match goal with
  | H : (1 <= v <= 12)%Z |- _ => decompose [or] (dial_cases v H); subst v; clear H
  end.

(** [wrap] sends every integer into 1..12. *)
Lemma wrap_Int (z : Z) :
  wrap (Int z) = Int (if bool_decide (12 < z)%Z then 1
                      else if bool_decide (z < 1)%Z then 12 else z)%Z.
Proof. unfold wrap; simpl. by repeat case_bool_decide. Qed.

Lemma wrap_Int_range (z : Z) :
  exists k, wrap (Int z) = Int k /\ (1 <= k <= 12)%Z.
Proof.
  rewrite wrap_Int. eexists; split; [reflexivity|].
  repeat case_bool_decide; lia.
Qed.

(** On a unit step, [wrap] is addition modulo 12 (with 12 as 0). *)
Lemma wrap_unit_step (v d : Z) :
  (1 <= v <= 12)%Z -> d = 1%Z \/ d = (-1)%Z -> wrap (Int (v + d)) = Int (step12 v d).
Proof.
  intros Hv Hd. rewrite wrap_Int. unfold step12. f_equal.
  repeat case_bool_decide.
  - assert (v + d = 13)%Z as E by lia.
    replace (v - 1 + d)%Z with 12%Z by lia. reflexivity.
  - assert (v + d = 0)%Z as E by lia.
    replace (v - 1 + d)%Z with (-1)%Z by lia. reflexivity.
  - rewrite Z.mod_small by lia. lia.
Qed.

Lemma step12_range (v d : Z) : (1 <= step12 v d <= 12)%Z.
Proof. unfold step12. pose proof (Z.mod_pos_bound (v - 1 + d) 12). lia. Qed.

Lemma step12_add (v d e : Z) : step12 (step12 v d) e = step12 v (d + e).
Proof.
  unfold step12. f_equal.
  replace ((v - 1 + d) mod 12 + 1 - 1 + e)%Z with ((v - 1 + d) mod 12 + e)%Z by lia.
  rewrite Zplus_mod_idemp_l. f_equal. lia.
Qed.

Lemma step12_0 (v : Z) : (1 <= v <= 12)%Z -> step12 v 0 = v.
Proof. intros Hv. unfold step12. rewrite Z.add_0_r, Z.mod_small by lia. lia. Qed.

Lemma step12_12 (v : Z) : 1 <= v <= 12 -> step12 v 12 = v.
Proof.
  intros Hv. unfold step12.
  replace (v - 1 + 12) with ((v - 1) + 1 * 12) by lia.
  rewrite Z.mod_add, Z.mod_small by lia. lia.
Qed.

#[export] Hint Resolve step12_range : clock.

(** [dialText] is printed back to its value by [parseInt]. *)
Lemma parseInt_dialText (v : Z) : 1 <= v <= 12 -> parseInt (dialText v) = Int v.
Proof. intros Hv. dial_enum v; reflexivity. Qed.

Lemma dialText_inj (v w : Z) :
  1 <= v <= 12 -> 1 <= w <= 12 -> dialText v = dialText w -> v = w.
Proof.
  intros Hv Hw E. apply (f_equal parseInt) in E.
  rewrite !parseInt_dialText in E by done. congruence.
Qed.

Lemma dialText_eq_12 (v : Z) : 1 <= v <= 12 -> dialText v = "12" <-> v = 12.
Proof.
  intros Hv. split; [|by intros ->].
  intros E. apply dialText_inj; [done|lia|done].
Qed.

Lemma nextTime_dialText (v d : Z) :
  1 <= v <= 12 -> nextTime (dialText v) d = padTime (wrap (Int (v + d))).
Proof. intros Hv. unfold nextTime. by rewrite parseInt_dialText. Qed.

Lemma nextTime_iter (n : nat) (v : Z) :
  1 <= v <= 12 ->
  Nat.iter n (λ t, nextTime t 1) (dialText v) = dialText (step12 v (Z.of_nat n)).
Proof.
  intros Hv. induction n as [|n IH]; simpl Nat.iter.
  - by rewrite step12_0.
  - rewrite IH, nextTime_dialText by auto with clock.
    rewrite wrap_unit_step by auto with clock.
    rewrite step12_add. unfold dialText. do 3 f_equal. lia.
Qed.

(** *** Decimal printing read back *)

Lemma horner_acc (d : Decimal.uint) (acc : positive) :
  Zpos (Pos.of_uint_acc d acc) = horner (Zpos acc) d.
Proof.
  revert acc. induction d; intros acc; simpl; [done|..]; rewrite IHd; f_equal; lia.
Qed.

Lemma horner_of_uint (d : Decimal.uint) : Z.of_uint d = horner 0 d.
Proof.
  unfold Z.of_uint. induction d; simpl; try done; by rewrite horner_acc.
Qed.

(** Evaluate [digit_val] on a concrete character. *)
Ltac digit_val_compute :=
  repeat match goal with
  | |- context [digit_val ?r ?c] =>
      let v := eval vm_compute in (digit_val r c) in change (digit_val r c) with v
  end.

Lemma parse_digits_uint (d : Decimal.uint) (a : Z) :
  parse_digits 10 (Some a) (NilEmpty.string_of_uint d) = Some (horner a d).
Proof.
  revert a. induction d; intros a; cbn [NilEmpty.string_of_uint parse_digits];
    digit_val_compute; cbn [default]; try done;
    rewrite IHd; cbn [horner]; unfold id; by rewrite ?Z.add_0_r.
Qed.

Lemma digit_cases (c : ascii) :
  is_digit c = true ->
  c = "0"%char \/ c = "1"%char \/ c = "2"%char \/ c = "3"%char \/ c = "4"%char \/
  c = "5"%char \/ c = "6"%char \/ c = "7"%char \/ c = "8"%char \/ c = "9"%char.
Proof.
  unfold is_digit. rewrite bool_decide_eq_true. intros Hc.
  rewrite <- (ascii_nat_embedding c).
  assert (E : forall k, (48 <= k <= 57)%nat ->
            (k = 48 \/ k = 49 \/ k = 50 \/ k = 51 \/ k = 52 \/ k = 53 \/ k = 54 \/
             k = 55 \/ k = 56 \/ k = 57)%nat) by lia.
  destruct (E _ Hc) as [->|[->|[->|[->|[->|[->|[->|[->|[->| ->]]]]]]]]]; auto 10.
Qed.

(** A nonempty digit string starts with a digit and continues with the
    digits of a shorter list. *)
Lemma string_of_uint_head (d : Decimal.uint) :
  d <> Decimal.Nil ->
  exists c d', NilEmpty.string_of_uint d = String c (NilEmpty.string_of_uint d') /\
    is_digit c = true /\ parse_digits 10 None (NilEmpty.string_of_uint d) = Some (horner 0 d).
Proof.
  intros Hd. destruct d as [|d|d|d|d|d|d|d|d|d|d]; [done|..].
  all: eexists _, d; split_and!; [reflexivity|reflexivity|].
  all: cbn [NilEmpty.string_of_uint parse_digits]; digit_val_compute; cbn [default].
  all: rewrite parse_digits_uint; cbn [horner]; by rewrite ?Z.add_0_r.
Qed.

(** [parseInt] on a string of digits is their decimal value. *)
Lemma parseInt_digits (c : ascii) (s : string) :
  is_digit c = true ->
  (s = EmptyString \/ exists c2 s', s = String c2 s' /\ is_digit c2 = true) ->
  parseInt (String c s) =
  match parse_digits 10 None (String c s) with Some v => Int v | None => NaN end.
Proof.
  intros Hc Hs.
  transitivity (match parse_digits 10 None (String c s) with
                | Some v => Int (1 * v) | None => NaN end);
    [|destruct (parse_digits 10 None (String c s)); [f_equal; lia|done]].
  destruct (digit_cases c Hc) as [->|[->|[->|[->|[->|[->|[->|[->|[->| ->]]]]]]]]];
    try reflexivity.
  destruct Hs as [->|(c2 & s' & -> & Hc2)]; [reflexivity|].
  destruct (digit_cases c2 Hc2) as [->|[->|[->|[->|[->|[->|[->|[->|[->| ->]]]]]]]]];
    reflexivity.
Qed.

Lemma string_of_uint_nonnil (d : Decimal.uint) :
  d <> Decimal.Nil -> NilZero.string_of_uint d = NilEmpty.string_of_uint d.
Proof. by destruct d. Qed.

(** What follows the first digit is empty or starts with a digit. *)
Lemma string_of_uint_tail (d : Decimal.uint) :
  NilEmpty.string_of_uint d = EmptyString \/
  exists c s, NilEmpty.string_of_uint d = String c s /\ is_digit c = true.
Proof.
  destruct d as [|d|d|d|d|d|d|d|d|d|d]; [by left|..]; right; eexists _, _; split; done.
Qed.

(** The decimal digits of a positive number, and their value. *)
Lemma to_uint_value (p : positive) :
  Pos.to_uint p <> Decimal.Nil /\ horner 0 (Pos.to_uint p) = Zpos p.
Proof.
  pose proof (DecimalZ.of_to (Zpos p)) as H. cbn [Z.to_int Z.of_int] in H.
  split; [intros E; rewrite E in H; discriminate H|].
  by rewrite <- horner_of_uint.
Qed.

(** ** Theorems *)

(** the wrap law of [incrementClk]: on a dial showing [v] in 1..12, a
    step of +1 or -1 shows [v + d] counted modulo 12 (13 becomes 1 and 0
    becomes 12). *)
Lemma nextTime_unit_step (v d : Z) :
  1 <= v <= 12 -> d = 1 \/ d = -1 -> nextTime (dialText v) d = dialText (step12 v d).
Proof.
  intros Hv Hd. rewrite nextTime_dialText by done.
  by rewrite wrap_unit_step.
Qed.

(** C11: whatever text a clock holds, one step of [incrementClk] leaves it
    showing a value in 1..12 written by [padTime], or "NaN" when the text
    does not start with a number. *)
Theorem nextTime_range (inner : string) (d : Z) :
  validDial (nextTime inner d) \/ nextTime inner d = "NaN".
Proof.
  unfold nextTime. destruct (parseInt inner) as [z|]; simpl.
  - left. destruct (wrap_Int_range (z + d)) as (k & -> & Hk). by exists k.
  - right. reflexivity.
Qed.

(** C10: a step and the opposite step cancel on a well-formed dial, and
    twelve steps of +1 return every well-formed dial to its start: the
    dial arithmetic is the cyclic group of order 12. *)
Theorem nextTime_cyclic (inner : string) :
  validDial inner ->
  nextTime (nextTime inner 1) (-1) = inner /\
  nextTime (nextTime inner (-1)) 1 = inner /\
  Nat.iter 12 (λ t, nextTime t 1) inner = inner.
Proof.
  intros (v & Hv & ->).
  rewrite (nextTime_iter 12), !nextTime_unit_step by auto with clock.
  rewrite !step12_add, !step12_0 by done.
  change (Z.of_nat 12) with 12. by rewrite step12_12.
Qed.

Lemma nextTime_cyclic_witness :
  validDial "07" /\ Nat.iter 12 (λ t, nextTime t 1) "07" = "07".
Proof.
  assert (H : validDial "07") by (exists 7; split; [lia | reflexivity]).
  split; [exact H|]. exact (proj2 (proj2 (nextTime_cyclic "07" H))).
Defined.

(** C21: [padTime] is read back by [parseInt] (print/parse round trip): for
    every integer [0 <= n <= 2^53] (every such integer is a double, and JS
    prints it in plain decimal), [parseInt(padTime(n))] is [n], with or
    without the leading "0" that [padTime] adds below 10.  (A negative [n]
    is not read back: [padTime(-5)] is "0-5", which [parseInt] reads as 0.) *)
Theorem parseInt_padTime (n : Z) : 0 <= n <= 2^53 -> parseInt (padTime (Int n)) = Int n.
Proof.
  intros [Hn _]. destruct n as [|p|p]; [reflexivity| |lia].
  destruct (to_uint_value p) as [Hd Hv].
  destruct (string_of_uint_head _ Hd) as (c & d' & Es & Hc & Hparse).
  unfold padTime, num_lt, num_to_string. cbn [Z.to_int NilZero.string_of_int].
  rewrite string_of_uint_nonnil by done. case_bool_decide; cbn iota.
  - change (parseInt (String "0" (NilEmpty.string_of_uint (Pos.to_uint p))) = Int (Zpos p)).
    rewrite parseInt_digits; [|reflexivity|right; eauto].
    cbn [parse_digits]. digit_val_compute. cbn [default]. unfold id.
    rewrite parse_digits_uint, <- Hv. by do 2 f_equal.
  - rewrite Es, parseInt_digits by (done || apply string_of_uint_tail).
    rewrite <- Es, Hparse. by rewrite Hv.
Qed.

Lemma parseInt_padTime_witness :
  (0 <= 9007199254740992 <= 2^53) /\
  parseInt (padTime (Int 9007199254740992)) = Int 9007199254740992 /\
  padTime (Int 9007199254740992) = "9007199254740992".
Proof.
  assert (H : 0 <= 9007199254740992 <= 2^53) by (split; [lia|reflexivity]).
  split; [exact H|split; [exact (parseInt_padTime _ H)|reflexivity]].
Defined.

End Dial.
