(* ===== verification/Spec.v ===== *)
(** * Spec: the abstract puzzle the script implements

    The typed model of the spec's sections 3-4: eighteen dials indexed by
    face and spot holding values in 1..12, and for each corner the face
    whose pin is raised (the spec's design note: one two-valued field per
    corner, so "exactly one pin of a pair raised" holds by construction).
    A press at a corner selects the acting face (the face whose pin is
    raised at that corner); the dials that move are those of the acting
    face next to a raised pin of that face, and the other face's copy of
    every such corner dial.  Front dials turn by the direction, back dials
    by its negation.

    The concrete page script ([Page.v]) is proved to refine this model;
    the theorems here say which dials a press moves: the pressed corner's
    own dials and its corner copy always, exactly one face plus the other
    face's corners when all pins of the acting face are raised, five dials
    when only the pressed pin is, the corner coupling with opposite signs,
    and that the press selects a pin bank rather than a corner. *)

From S2P Require Import Prelude Names Dial.
From stdpp Require Import finite.
From Stdlib Require Import Morphisms.
Import Names Dial.

Module Spec.
Local Open Scope Z_scope.

Record Puzzle := mkPuzzle {
  dial : Face -> Spot -> Z;
  pins : Corner -> Face
}.

(** The acting face of a press at [c]: the face of its raised pin. *)
Definition actingFace (P : Puzzle) (c : Corner) : Face := pins P c.

(** [s] is next to a raised pin of face [a]. *)
Definition faceHit (P : Puzzle) (a : Face) (s : Spot) : bool :=
  existsb (λ c', bool_decide (pins P c' = a) && bool_decide (s ∈ pinSpots c'))
          (enum Corner).

(** The dials a press at [c] moves (spec 4.3). *)
Definition activated (P : Puzzle) (c : Corner) (f : Face) (s : Spot) : bool :=
  let a := actingFace P c in
  if decide (f = a) then faceHit P a s else isCornerSpot s && faceHit P a s.

(** Back dials turn the other way (spec 4.4). *)
Definition effDir (f : Face) (d : Z) : Z :=
  match f with Front => d | Back => - d end.

Definition applyMove (P : Puzzle) (c : Corner) (d : Z) : Puzzle :=
  {| dial := λ f s, if activated P c f s then step12 (dial P f s) (effDir f d)
                    else dial P f s;
     pins := pins P |}.

Definition isSolved (P : Puzzle) : bool :=
  forallb (λ fs, bool_decide (dial P fs.1 fs.2 = 12)) allDials.

(** Raise the pin of face [f] at corner [c]. *)
Definition setPin (P : Puzzle) (c : Corner) (f : Face) : Puzzle :=
  {| dial := dial P; pins := λ c', if decide (c' = c) then f else pins P c' |}.

(** Toggle the pin pair at corner [c]: the raised pin is lowered and the
    other face's pin raised. *)
Definition flipPin (P : Puzzle) (c : Corner) : Puzzle := setPin P c (opposite (pins P c)).

(** Overwrite every dial (the scramble shortcut). *)
Definition randomizeAll (P : Puzzle) (vals : Face -> Spot -> Z) : Puzzle :=
  {| dial := vals; pins := pins P |}.

Definition resetAll (P : Puzzle) : Puzzle :=
  {| dial := λ _ _, 12; pins := pins P |}.

(** Every dial shows a value in 1..12. *)
Definition valid (P : Puzzle) : Prop := forall f s, 1 <= dial P f s <= 12.

(** The dials a press moves, as a list. *)
Definition activationSet (P : Puzzle) (c : Corner) : list (Face * Spot) :=
  filter (λ fs, activated P c fs.1 fs.2 = true) allDials.

(** ** Puzzles up to pointwise equality *)

Definition equiv (P Q : Puzzle) : Prop :=
  (forall f s, dial P f s = dial Q f s) /\ (forall c, pins P c = pins Q c).

#[export] Instance equiv_Equivalence : Equivalence equiv.
Proof.
  split.
  - done.
  - intros P Q [H1 H2]; split; congruence.
  - intros P Q R [H1 H2] [H3 H4]; split; congruence.
Qed.

(** ** Lemmas *)

Lemma faceHit_ext P Q a s :
  (forall c, pins P c = pins Q c) -> faceHit P a s = faceHit Q a s.
Proof.
  intros H. unfold faceHit.
  induction (enum Corner) as [|c l IH]; simpl; [done|]. by rewrite IH, H.
Qed.

#[export] Instance activated_proper :
  Proper (equiv ==> eq ==> eq ==> eq ==> eq) activated.
Proof.
  intros P Q [_ Hp] c ? <- f ? <- s ? <-. unfold activated, actingFace.
  rewrite Hp. by rewrite (faceHit_ext P Q).
Qed.

#[export] Instance applyMove_proper :
  Proper (equiv ==> eq ==> eq ==> equiv) applyMove.
Proof.
  intros P Q HPQ c ? <- d ? <-. split; [|apply HPQ].
  intros f s; simpl. rewrite HPQ. by rewrite (proj1 HPQ).
Qed.

#[export] Instance isSolved_proper : Proper (equiv ==> eq) isSolved.
Proof.
  intros P Q [Hd _]. unfold isSolved.
  induction allDials as [|[f s] l IH]; simpl; [done|]. by rewrite IH, Hd.
Qed.

Lemma dial_applyMove P c d f s :
  dial (applyMove P c d) f s =
  if activated P c f s then step12 (dial P f s) (effDir f d) else dial P f s.
Proof. done. Qed.

Lemma valid_applyMove P c d : valid P -> valid (applyMove P c d).
Proof.
  intros HP f s. rewrite dial_applyMove. destruct (activated _ _ _ _); auto with clock.
Qed.

#[export] Hint Resolve valid_applyMove : clock.

(** The pin setting as four faces, and back: every question about what a
    press activates is one of sixteen finite cases. *)
Definition pinsOf (ul ur dr dl : Face) (c : Corner) : Face :=
  match c with UL => ul | UR => ur | DR => dr | DL => dl end.

Lemma pins_pinsOf P :
  equiv P (mkPuzzle (dial P) (pinsOf (pins P UL) (pins P UR) (pins P DR) (pins P DL))).
Proof. split; [done|]. by intros []. Qed.

Lemma activated_pinsOf P c f s :
  activated P c f s =
  activated (mkPuzzle (dial P) (pinsOf (pins P UL) (pins P UR) (pins P DR) (pins P DL))) c f s.
Proof. apply activated_proper; [apply pins_pinsOf|done..]. Qed.

Lemma activationSet_pinsOf P c :
  activationSet P c =
  activationSet (mkPuzzle (dial P) (pinsOf (pins P UL) (pins P UR) (pins P DR) (pins P DL))) c.
Proof. unfold activationSet. apply list_filter_iff. intros [f s]; simpl. by rewrite <- activated_pinsOf. Qed.

Lemma elem_of_activationSet P c f s :
  (f, s) ∈ activationSet P c <-> activated P c f s = true.
Proof.
  unfold activationSet. rewrite list_elem_of_filter. simpl.
  split; [tauto|]. split; [done|]. apply elem_of_enum.
Qed.

Lemma activationSet_NoDup P c : NoDup (activationSet P c).
Proof. apply NoDup_filter, NoDup_enum. Qed.

Lemma faceHit_own P c s : s ∈ pinSpots c -> faceHit P (pins P c) s = true.
Proof.
  intros Hs. apply existsb_exists. exists c. split.
  - apply list_elem_of_In, elem_of_enum.
  - rewrite !bool_decide_eq_true_2; done.
Qed.

Lemma spotOfCorner_pinSpots c : spotOfCorner c ∈ pinSpots c.
Proof. destruct c; set_solver. Qed.

Lemma isCornerSpot_spotOfCorner c : isCornerSpot (spotOfCorner c) = true.
Proof. by destruct c. Qed.

Lemma opposite_neq f : opposite f <> f.
Proof. by destruct f. Qed.

#[export] Hint Resolve faceHit_own spotOfCorner_pinSpots isCornerSpot_spotOfCorner : clock.

(** ** Theorems *)

(** C13: C-own: a press at corner [c] always moves the four dials its own pin
    governs on the acting face, and the other face's copy of the corner
    dial: the activation set is never empty, whatever the pins. *)
Theorem activated_own_pin P c :
  (forall s, s ∈ pinSpots c -> activated P c (actingFace P c) s = true) /\
  activated P c (opposite (actingFace P c)) (spotOfCorner c) = true.
Proof.
  unfold activated, actingFace. split.
  - intros s Hs. rewrite decide_True by done. by apply faceHit_own.
  - rewrite decide_False by apply opposite_neq.
    rewrite isCornerSpot_spotOfCorner. simpl. auto with clock.
Qed.

(** C22: the press selects a pin bank, not a corner: two corners whose pins
    are raised on the same face make the same move. *)
Theorem applyMove_same_bank P c1 c2 d :
  pins P c1 = pins P c2 -> equiv (applyMove P c1 d) (applyMove P c2 d).
Proof.
  intros H. split; [|done]. intros f s. rewrite !dial_applyMove.
  unfold activated, actingFace. by rewrite H.
Qed.

(** C18: corner coupling: a corner dial and its copy on the other face move
    together, the front copy by the direction and the back copy by its
    negation. *)
Theorem corner_coupling P c d s :
  isCornerSpot s = true ->
  (dial (applyMove P c d) Front s = dial P Front s /\
   dial (applyMove P c d) Back s = dial P Back s) \/
  (dial (applyMove P c d) Front s = step12 (dial P Front s) d /\
   dial (applyMove P c d) Back s = step12 (dial P Back s) (- d)).
Proof.
  intros Hs. rewrite !dial_applyMove. unfold activated.
  rewrite Hs. simpl. destruct (actingFace P c); simpl;
    destruct (faceHit P _ s); simpl; auto.
Qed.


(** C14: spec scenario "all four pins of the acting face raised": every
    dial of that face and the four corner dials of the other face move,
    thirteen dials in all. *)
Theorem activated_all_raised P c f s :
  (forall c', pins P c' = pins P c) ->
  activated P c f s = bool_decide (f = pins P c) || isCornerSpot s.
Proof.
  intros H. rewrite activated_pinsOf, (H UL), (H UR), (H DR), (H DL).
  destruct (pins P c), c, f, s; reflexivity.
Qed.

Lemma activated_all_raised_witness :
  let P := mkPuzzle (λ _ _, 12) (λ _, Front) in
  (forall c', pins P c' = pins P UL) /\
  activated P UL Back SU = bool_decide (Back = pins P UL) || isCornerSpot SU.
Proof.
  intros P. assert (H : forall c', pins P c' = pins P UL) by done.
  split; [exact H | exact (activated_all_raised P UL Back SU H)].
Defined.

(** C16: spec scenario "only the pressed corner's pin raised on its face":
    exactly the four dials of that pin and the other face's copy of the
    corner dial move. *)
Theorem activated_single_pin P c f s :
  (forall c', c' <> c -> pins P c' = opposite (pins P c)) ->
  activated P c f s =
  bool_decide ((f = pins P c /\ s ∈ pinSpots c) \/
               (f = opposite (pins P c) /\ s = spotOfCorner c)).
Proof.
  intros H. rewrite activated_pinsOf.
  destruct c;
    [rewrite (H UR), (H DR), (H DL) by done | rewrite (H UL), (H DR), (H DL) by done
    |rewrite (H UL), (H UR), (H DL) by done | rewrite (H UL), (H UR), (H DR) by done];
    destruct (pins P _), f, s; reflexivity.
Qed.

Lemma activated_single_pin_witness :
  let P := mkPuzzle (λ _ _, 12) (λ c, if decide (c = UL) then Front else Back) in
  (forall c', c' <> UL -> pins P c' = opposite (pins P UL)) /\
  activated P UL Back SUL =
  bool_decide ((Back = pins P UL /\ SUL ∈ pinSpots UL) \/
               (Back = opposite (pins P UL) /\ SUL = spotOfCorner UL)).
Proof.
  intros P. assert (H : forall c', c' <> UL -> pins P c' = opposite (pins P UL)).
  { intros [] Hc; done. }
  split; [exact H | exact (activated_single_pin P UL Back SUL H)].
Defined.

(** A puzzle with every dial at 12, the pins raised on face [a] at the
    corners of [front] and on the other face elsewhere. *)
Definition samplePins (a : Face) (front : list Corner) : Puzzle :=
  mkPuzzle (λ _ _, 12) (λ c, if decide (c ∈ front) then a else opposite a).

Lemma valid_samplePins a front : valid (samplePins a front).
Proof. intros f s. simpl. lia. Qed.

Lemma applyMove_same_bank_witness :
  pins (samplePins Front [UL; DR]) UL = pins (samplePins Front [UL; DR]) DR /\
  equiv (applyMove (samplePins Front [UL; DR]) UL 1) (applyMove (samplePins Front [UL; DR]) DR 1).
Proof.
  assert (H : pins (samplePins Front [UL; DR]) UL = pins (samplePins Front [UL; DR]) DR)
    by reflexivity.
  split; [exact H|exact (applyMove_same_bank _ UL DR 1 H)].
Defined.

Lemma corner_coupling_witness :
  isCornerSpot SDL = true /\
  ((dial (applyMove (samplePins Front [UL]) UL 1) Front SDL = dial (samplePins Front [UL]) Front SDL /\
    dial (applyMove (samplePins Front [UL]) UL 1) Back SDL = dial (samplePins Front [UL]) Back SDL) \/
   (dial (applyMove (samplePins Front [UL]) UL 1) Front SDL =
      step12 (dial (samplePins Front [UL]) Front SDL) 1 /\
    dial (applyMove (samplePins Front [UL]) UL 1) Back SDL =
      step12 (dial (samplePins Front [UL]) Back SDL) (- 1))).
Proof.
  assert (H : isCornerSpot SDL = true) by reflexivity.
  split; [exact H|exact (corner_coupling _ UL 1 SDL H)].
Defined.

End Spec.
