(* ===== verification/Page.v ===== *)
(** * Page: the page state and the move engine of [src/script.js]

    The script keeps no state of its own besides [controllingFront]: the
    puzzle lives in the page.  A clock's value is the [innerHTML] of its
    element, a pin's position the [checked] flag of its checkbox.  This file
    models that state as a record of stdpp maps keyed by element id (an id
    with no element is absent, and reading through it throws a
    [TypeError], except that [pin] is a plain object and answers the names
    it inherits from [Object.prototype]), and the handlers of the move logic
    ([incrementClk], [getActiveNeighbors], [applyMove], [isSolved],
    [script.js] 101-193) as functions in the page-script monad of
    [Prelude].  The theorems relate them to the abstract puzzle of [Spec]:
    on a page that represents a puzzle, [getActiveNeighbors] returns exactly
    the activation set, and [applyMove] never throws and leaves a page that
    represents the abstract move (a forward simulation); the loop of
    [applyMove] gives the same page in any order, and stops with the
    clocks before a missing one already turned; and no handler of the
    engine creates or removes an element ([sameShape], proved with the
    [preserves] combinators of [Prelude]). *)

From S2P Require Import Prelude Names Dial Spec.
From stdpp Require Import finite.
Import Names Dial.

Module Page.
Local Open Scope Z_scope.

Record Page := mkPage {
  clk : gmap string string;       (** [clk[id].innerHTML] *)
  pinChecked : gmap string bool;  (** [pin[id].checked] *)
  controllingFront : bool;        (** [script.js] 273 *)
  frontBorder : option string;    (** [frontFace.style.borderColor]; [None]: no element *)
  backBorder : option string;     (** [backFace.style.borderColor]; [None]: no element *)
  alerts : list string            (** alerts scheduled with [setTimeout] *)
}.

Definition with_clk (m : gmap string string) (p : Page) : Page :=
  mkPage m (pinChecked p) (controllingFront p) (frontBorder p) (backBorder p) (alerts p).
Definition with_pins (m : gmap string bool) (p : Page) : Page :=
  mkPage (clk p) m (controllingFront p) (frontBorder p) (backBorder p) (alerts p).
Definition with_alert (msg : string) (p : Page) : Page :=
  mkPage (clk p) (pinChecked p) (controllingFront p) (frontBorder p) (backBorder p)
         (alerts p ++ [msg]).
Definition with_controllingFront (cf : bool) (p : Page) : Page :=
  mkPage (clk p) (pinChecked p) cf (frontBorder p) (backBorder p) (alerts p).
Definition with_borders (fb bb : option string) (p : Page) : Page :=
  mkPage (clk p) (pinChecked p) (controllingFront p) fb bb (alerts p).

(** ** Element access *)

(** [clk[n].innerHTML] *)
Definition readClk (n : string) : JS Page string :=
  p <- jget ;; jdefined n (clk p !! n).

(** [clk[n].innerHTML = t] *)
Definition writeClk (n t : string) : JS Page unit :=
  p <- jget ;; _ <- jdefined n (clk p !! n) ;; jput (with_clk (<[n := t]> (clk p)) p).

(** The property names every plain object inherits from
    [Object.prototype] (ECMAScript 20.1.3 and Annex B.2.2): the [pin]
    object that [getElements] builds from [{}] answers [pin[n]] for these
    names too. *)
Definition objectPrototypeNames : list string :=
  ["constructor"; "hasOwnProperty"; "isPrototypeOf"; "propertyIsEnumerable";
   "toLocaleString"; "toString"; "valueOf"; "__proto__";
   "__defineGetter__"; "__defineSetter__"; "__lookupGetter__"; "__lookupSetter__"].

(** [pin[n].checked] for any string [n]: an own key holds a checkbox; an
    inherited name holds a function (or, for [__proto__], the prototype),
    whose [checked] is [undefined], which is falsy; any other name is
    [undefined] (and an own key whose element is missing is [null]), and
    reading [checked] of it throws. *)
Definition isChecked (n : string) : JS Page bool :=
  p <- jget ;;
  match pinChecked p !! n with
  | Some b => jret b
  | None => if decide (n ∈ objectPrototypeNames) then jret false else jthrow (TypeError n)
  end.

(** ** The move logic, [script.js] 101-193 *)

Definition incrementClk (clkName : string) (direction : Z) : JS Page unit :=
  let direction := if isBack clkName then direction * -1 else direction in
  inner <- readClk clkName ;;
  writeClk clkName (nextTime inner direction).

(** The first loop of [getActiveNeighbors]: the neighbours of every
    checked pin of [targetPins], pushed in order ([...undefined] throws). *)
Fixpoint collectActive (activeFaceClks : list string) (targetPins : list string)
  : JS Page (list string) :=
  match targetPins with
  | [] => jret activeFaceClks
  | pinName :: rest =>
      b <- isChecked pinName ;;
      if b then
        ns <- jdefined pinName (getNeighborsOfPin pinName) ;;
        collectActive (activeFaceClks ++ ns) rest
      else collectActive activeFaceClks rest
  end.

Definition getActiveNeighbors (corner : string) : JS Page (list string) :=
  front <- isChecked (String.append "p" corner) ;;
  let targetPins := if front then take 4 pinNames else drop 4 pinNames in
  activeFaceClks <- collectActive [] targetPins ;;
  let activeClks :=
    activeFaceClks ++ (getComplementOfClk <$> filter (λ n, isCorner n = true) activeFaceClks) in
  jret (js_set activeClks).

Definition isSolved : JS Page bool :=
  jforall (λ n, inner <- readClk n ;; jret (bool_decide (inner = "12"))) clkNames.

Definition applyMove (corner : string) (direction : Z) : JS Page unit :=
  activeNeighbors <- getActiveNeighbors corner ;;
  _ <- jforeach (λ n, incrementClk n direction) activeNeighbors ;;
  solved <- isSolved ;;
  if solved then (p <- jget ;; jput (with_alert "Solved!" p)) else jret tt.

(** ** The abstraction: a page represents a puzzle *)

(** Every clock shows its dial's value as [padTime] writes it, and every
    pin checkbox is checked exactly when its face's pin is raised. *)
Definition represents (p : Page) (P : Spec.Puzzle) : Prop :=
  Spec.valid P /\
  (forall f s, clk p !! clkName f s = Some (dialText (Spec.dial P f s))) /\
  (forall f c, pinChecked p !! pinName f c = Some (bool_decide (Spec.pins P c = f))).

(** Both face outlines exist ([frontFace] and [backFace] are not null). *)
Definition facesPresent (p : Page) : Prop :=
  is_Some (frontBorder p) /\ is_Some (backBorder p).

(** Two pages with the same elements: the same clock and pin ids, and
    each face outline present on both or on neither.  No handler creates
    or removes an element. *)
Definition sameShape (p p' : Page) : Prop :=
  dom (clk p') = dom (clk p) /\ dom (pinChecked p') = dom (pinChecked p) /\
  (is_Some (frontBorder p') <-> is_Some (frontBorder p)) /\
  (is_Some (backBorder p') <-> is_Some (backBorder p)).

(** The elements a loaded page has: exactly the eighteen clocks, the eight
    pins and both face outlines. *)
Definition pageShape (p : Page) : Prop :=
  dom (clk p) = list_to_set clkNames /\ dom (pinChecked p) = list_to_set pinNames /\
  facesPresent p.

(** The pin flags a puzzle prescribes. *)
Definition pinChk (P : Spec.Puzzle) (n : string) : bool :=
  match pinOfName n with
  | Some (f, c) => bool_decide (Spec.pins P c = f)
  | None => false
  end.

(** What [getActiveNeighbors] returns when every pin reads [chk]. *)
Definition activeNames (chk : string -> bool) (corner : string) : list string :=
  let targetPins := if chk (String.append "p" corner) then take 4 pinNames else drop 4 pinNames in
  let faceClks :=
    concat ((λ pn, if chk pn then default [] (getNeighborsOfPin pn) else []) <$> targetPins) in
  js_set (faceClks ++ (getComplementOfClk <$> filter (λ n, isCorner n = true) faceClks)).

(** Two lists with the same elements, decided. *)
Definition sameElems (L M : list string) : bool :=
  bool_decide (Forall (λ x, x ∈ M) L /\ Forall (λ x, x ∈ L) M).

(** ** Lemmas: the handlers keep the page's elements *)

#[export] Instance sameShape_preorder : PreOrder sameShape.
Proof.
  split; [intros p; by split_and!|].
  intros p q r (H1 & H2 & H3 & H4) (H5 & H6 & H7 & H8). split_and!; [congruence|congruence|tauto|tauto].
Qed.

#[export] Hint Resolve sameShape_preorder : preserves.

Lemma sameShape_pageShape p p' : sameShape p p' -> pageShape p -> pageShape p'.
Proof.
  intros (H1 & H2 & H3 & H4) (H5 & H6 & H7 & H8).
  split_and!; [congruence|congruence|split; tauto].
Qed.

Lemma sameShape_clk p m : dom m = dom (clk p) -> sameShape p (with_clk m p).
Proof. intros H. by split_and!. Qed.

Lemma sameShape_pins p m : dom m = dom (pinChecked p) -> sameShape p (with_pins m p).
Proof. intros H. by split_and!. Qed.

Lemma sameShape_with_alert msg p : sameShape p (with_alert msg p).
Proof. by split_and!. Qed.

Lemma sameShape_with_controllingFront cf p : sameShape p (with_controllingFront cf p).
Proof. by split_and!. Qed.

Lemma writeClk_shape n t : preserves sameShape (writeClk n t).
Proof.
  constructor. intros p. unfold writeClk, jbind, jget, jdefined, jput, jret, jthrow.
  destruct (clk p !! n) eqn:E; simpl; [|reflexivity].
  apply sameShape_clk. apply dom_insert_lookup_L. by eexists.
Qed.

#[export] Hint Resolve sameShape_with_alert sameShape_with_controllingFront writeClk_shape
  : preserves.

Lemma readClk_shape n : preserves sameShape (readClk n).
Proof. unfold readClk. solve_preserves. Qed.

Lemma isChecked_shape n : preserves sameShape (isChecked n).
Proof. unfold isChecked. solve_preserves. Qed.

#[export] Hint Resolve readClk_shape isChecked_shape : preserves.

Lemma incrementClk_shape n d : preserves sameShape (incrementClk n d).
Proof. unfold incrementClk. solve_preserves. Qed.

Lemma collectActive_shape acc l : preserves sameShape (collectActive acc l).
Proof. revert acc. induction l as [|pn l IH]; intros acc; simpl; solve_preserves. Qed.

#[export] Hint Resolve incrementClk_shape collectActive_shape : preserves.

Lemma applyMove_shape corner d : preserves sameShape (applyMove corner d).
Proof. unfold applyMove, getActiveNeighbors, isSolved. solve_preserves. Qed.

#[export] Hint Resolve applyMove_shape : preserves.

(** ** Lemmas: the handlers on a page where the ids they touch exist *)

Lemma readClk_ok p n t : clk p !! n = Some t -> readClk n p = inr (t, p).
Proof. intros H. cbv [readClk jbind jget jdefined jret]. by rewrite H. Qed.

Lemma isChecked_ok p n b : pinChecked p !! n = Some b -> isChecked n p = inr (b, p).
Proof. intros H. cbv [isChecked jbind jget jret]. by rewrite H. Qed.

Lemma incrementClk_ok p n d t :
  clk p !! n = Some t ->
  incrementClk n d p =
  inr (tt, with_clk (<[n := nextTime t (if isBack n then d * -1 else d)]> (clk p)) p).
Proof.
  intros H. unfold incrementClk. cbv [jbind]. rewrite (readClk_ok _ _ _ H).
  cbv [writeClk jbind jget jdefined jret jput]. by rewrite H.
Qed.

Lemma collectActive_ok p (chk : string -> bool) acc targetPins :
  (forall pn, pn ∈ targetPins ->
     pinChecked p !! pn = Some (chk pn) /\ is_Some (getNeighborsOfPin pn)) ->
  collectActive acc targetPins p =
  inr (acc ++ concat ((λ pn, if chk pn then default [] (getNeighborsOfPin pn) else [])
                        <$> targetPins), p).
Proof.
  revert acc. induction targetPins as [|pn rest IH]; intros acc H; simpl.
  - by rewrite app_nil_r.
  - destruct (H pn) as [Hc [ns Hns]]; [by left|].
    cbv [jbind]. rewrite (isChecked_ok _ _ _ Hc).
    assert (H' : forall pn', pn' ∈ rest ->
              pinChecked p !! pn' = Some (chk pn') /\ is_Some (getNeighborsOfPin pn'))
      by (intros; apply H; by right).
    destruct (chk pn); cbv [jdefined jret]; rewrite ?Hns; simpl;
      rewrite IH by done; by rewrite ?app_assoc.
Qed.

Lemma getActiveNeighbors_ok p chk corner :
  (forall pn, pn ∈ pinNames -> pinChecked p !! pn = Some (chk pn)) ->
  String.append "p" corner ∈ pinNames ->
  getActiveNeighbors corner p = inr (activeNames chk corner, p).
Proof.
  intros H Hc. unfold getActiveNeighbors. cbv [jbind].
  rewrite (isChecked_ok _ _ _ (H _ Hc)).
  assert (Hsub : forall pn, pn ∈ (if chk (String.append "p" corner)
                                  then take 4 pinNames else drop 4 pinNames) -> pn ∈ pinNames).
  { intros pn. destruct (chk _); [apply subseteq_take | apply subseteq_drop]. }
  rewrite (collectActive_ok _ chk); [done|].
  intros pn Hpn%Hsub. split; [by apply H|].
  apply elem_of_pinNames in Hpn as (f & c & ->).
  rewrite getNeighborsOfPin_pinName. by eexists.
Qed.

Lemma represents_pins p P pn :
  represents p P -> pn ∈ pinNames -> pinChecked p !! pn = Some (pinChk P pn).
Proof.
  intros (_ & _ & Hp) Hin. apply elem_of_pinNames in Hin as (f & c & ->).
  unfold pinChk. rewrite pinOfName_pinName. apply Hp.
Qed.

Lemma sameElems_spec L M : sameElems L M = true -> forall x, x ∈ L <-> x ∈ M.
Proof.
  unfold sameElems. rewrite bool_decide_eq_true, !Forall_forall. intros [H1 H2] x.
  split; auto.
Qed.

Lemma elem_of_clkNamesOf (L : list (Face * Spot)) n :
  n ∈ (λ fs, clkName fs.1 fs.2) <$> L <-> exists f s, n = clkName f s /\ (f, s) ∈ L.
Proof.
  rewrite list_elem_of_fmap. split.
  - intros [[f s] [-> H]]. eauto.
  - intros (f & s & -> & H). by exists (f, s).
Qed.

Lemma activeNames_ext chk1 chk2 corner :
  (forall n, chk1 n = chk2 n) -> activeNames chk1 corner = activeNames chk2 corner.
Proof.
  intros H. unfold activeNames. rewrite H.
  assert (Hf : forall l : list string,
    (λ pn, if chk1 pn then default [] (getNeighborsOfPin pn) else []) <$> l =
    (λ pn, if chk2 pn then default [] (getNeighborsOfPin pn) else []) <$> l).
  { induction l as [|x l IH]; [done|]. by rewrite !fmap_cons, IH, H. }
  by rewrite Hf.
Qed.

Lemma pinChk_pinsOf P n :
  pinChk P n =
  pinChk (Spec.mkPuzzle (Spec.dial P)
            (Spec.pinsOf (Spec.pins P UL) (Spec.pins P UR) (Spec.pins P DR) (Spec.pins P DL))) n.
Proof. unfold pinChk. destruct (pinOfName n) as [[f []]|]; reflexivity. Qed.

(** The list the script computes has the elements of the activation set:
    sixty-four finite cases (four corners, sixteen pin settings). *)
Lemma activeNames_activationSet P c :
  sameElems (activeNames (pinChk P) (cornerTag c))
            ((λ fs, clkName fs.1 fs.2) <$> Spec.activationSet P c) = true.
Proof.
  rewrite (activeNames_ext _ _ _ (pinChk_pinsOf P)), Spec.activationSet_pinsOf.
  generalize (Spec.dial P). intros dl.
  destruct (Spec.pins P UL), (Spec.pins P UR), (Spec.pins P DR), (Spec.pins P DL), c;
    vm_compute; reflexivity.
Qed.

(** The direction [incrementClk] applies to clock [n]. *)
Definition dirOf (n : string) (d : Z) : Z := if isBack n then d * -1 else d.

(** The reference update of one move: every clock of [L] turned once, at
    the same time, every other clock as it was. *)
Definition turnAll (L : list string) (d : Z) (p : Page) : Page :=
  with_clk (map_imap (λ k t, Some (if decide (k ∈ L) then nextTime t (dirOf k d) else t))
                     (clk p)) p.

Lemma dirOf_clkName f s d : dirOf (clkName f s) d = Spec.effDir f d.
Proof. unfold dirOf. autorewrite with clock_simpl. destruct f; simpl; lia. Qed.

(** The loop of [applyMove] over a duplicate-free list of existing clocks
    turns each of them once and touches nothing else. *)
Lemma foreach_incrementClk (L : list string) d p :
  NoDup L -> (forall n, n ∈ L -> is_Some (clk p !! n)) ->
  exists m, jforeach (λ n, incrementClk n d) L p = inr (tt, with_clk m p) /\
    forall k, m !! k = if decide (k ∈ L) then (λ t, nextTime t (dirOf k d)) <$> clk p !! k
                       else clk p !! k.
Proof.
  revert p. induction L as [|x L IH]; intros p Hnd Hex.
  - exists (clk p). split; [by destruct p|]. intros k. by rewrite decide_False by set_solver.
  - apply NoDup_cons in Hnd as [Hx Hnd]. destruct (Hex x) as [t Ht]; [set_solver|].
    set (p1 := with_clk (<[x := nextTime t (dirOf x d)]> (clk p)) p).
    destruct (IH p1) as (m & Hrun & Hm); [done| |].
    { intros n Hn. simpl. rewrite lookup_insert_ne by set_solver. apply Hex. set_solver. }
    exists m. split.
    + simpl. cbv [jbind]. rewrite (incrementClk_ok _ _ _ _ Ht). exact Hrun.
    + intros k. rewrite Hm. simpl. destruct (decide (k = x)) as [->|Hne].
      * rewrite decide_False, decide_True by set_solver. by rewrite lookup_insert_eq, Ht.
      * rewrite lookup_insert_ne by done.
        destruct (decide (k ∈ L)); [rewrite decide_True | rewrite decide_False]; set_solver.
Qed.

Lemma turnAll_nil d p : turnAll [] d p = p.
Proof.
  unfold turnAll. destruct p as [c k cf fb bb al]. unfold with_clk. simpl. f_equal.
  apply map_eq. intros n. rewrite map_lookup_imap. by destruct (c !! n).
Qed.

Lemma turnAll_cons x L d p t :
  x ∉ L -> clk p !! x = Some t ->
  turnAll L d (with_clk (<[x := nextTime t (dirOf x d)]> (clk p)) p) = turnAll (x :: L) d p.
Proof.
  intros Hx Ht. unfold turnAll, with_clk. simpl. f_equal. apply map_eq. intros k.
  rewrite !map_lookup_imap, lookup_insert. destruct (decide (x = k)) as [<-|Hne]; simpl.
  - rewrite Ht. simpl. rewrite decide_False, decide_True by set_solver. done.
  - destruct (clk p !! k); simpl; [|done]. do 2 f_equal.
    destruct (decide (k ∈ L)); [rewrite decide_True|rewrite decide_False]; set_solver.
Qed.

(** The loop of [applyMove] reaching a missing clock: it throws there, and
    the clocks before it stay turned. *)
Lemma foreach_incrementClk_fail (L1 L2 : list string) n d p :
  NoDup (L1 ++ n :: L2) -> (forall k, k ∈ L1 -> is_Some (clk p !! k)) -> clk p !! n = None ->
  jforeach (λ k, incrementClk k d) (L1 ++ n :: L2) p = inl (TypeError n, turnAll L1 d p).
Proof.
  revert p. induction L1 as [|x L1 IH]; intros p Hnd Hex Hn; simpl.
  - rewrite turnAll_nil. apply jbind_err. unfold incrementClk. apply jbind_err.
    cbv [readClk jbind jget jdefined jthrow]. by rewrite Hn.
  - apply NoDup_cons in Hnd as [Hx Hnd]. destruct (Hex x) as [t Ht]; [set_solver|].
    rewrite (jbind_ok _ _ _ _ _ (incrementClk_ok _ _ _ _ Ht)).
    rewrite <- (turnAll_cons x L1 d p t) by (done || set_solver). apply IH; [done| |].
    + intros k Hk. simpl. rewrite lookup_insert_ne by set_solver. apply Hex. set_solver.
    + simpl. rewrite lookup_insert_ne by set_solver. done.
Qed.

Lemma getActiveNeighbors_NoDup corner p L p' :
  getActiveNeighbors corner p = inr (L, p') -> NoDup L.
Proof.
  unfold getActiveNeighbors, jbind.
  destruct (isChecked _ p) as [|[b p1]]; [discriminate|].
  destruct (collectActive _ _ p1) as [|[l p2]]; [discriminate|].
  cbv [jret]. intros [= <- _]. apply js_set_NoDup.
Qed.

Lemma isSolved_represents p P : represents p P -> isSolved p = inr (Spec.isSolved P, p).
Proof.
  intros (HV & Hc & _). unfold isSolved, Spec.isSolved. rewrite clkNames_enum.
  induction allDials as [|[f s] l IH]; [done|]. rewrite fmap_cons. simpl jforall.
  assert (Hstep : (inner <- readClk (clkName f s) ;; jret (bool_decide (inner = "12"))) p
                  = inr (bool_decide (Spec.dial P f s = 12), p)).
  { rewrite (jbind_ok _ _ _ _ _ (readClk_ok _ _ _ (Hc f s))). cbv [jret].
    do 3 f_equal. apply bool_decide_ext, dialText_eq_12, HV. }
  rewrite (jbind_ok _ _ _ _ _ Hstep). simpl. destruct (bool_decide _); [exact IH|done].
Qed.

(** After the loop of [applyMove], the page represents the abstract move. *)
Lemma represents_after_move p P c d (L : list string) m :
  represents p P -> d = 1 \/ d = -1 ->
  (forall n, n ∈ L <-> exists f s, n = clkName f s /\ Spec.activated P c f s = true) ->
  (forall k, m !! k = if decide (k ∈ L) then (λ t, nextTime t (dirOf k d)) <$> clk p !! k
                      else clk p !! k) ->
  represents (with_clk m p) (Spec.applyMove P c d).
Proof.
  intros (HV & Hc & Hp) Hd HL Hm. split; [by apply Spec.valid_applyMove|split; [|exact Hp]].
  intros f s. rewrite Spec.dial_applyMove. change (clk (with_clk m p)) with m. rewrite Hm, Hc.
  assert (Hiff : clkName f s ∈ L <-> Spec.activated P c f s = true).
  { rewrite HL. split; [intros (f' & s' & E & H); by apply clkName_inj in E as [-> ->]|eauto]. }
  destruct (Spec.activated P c f s).
  - rewrite decide_True by (by apply Hiff). simpl. rewrite dirOf_clkName.
    rewrite nextTime_unit_step; [done|apply HV|destruct f, Hd; simpl; lia].
  - rewrite decide_False by (rewrite Hiff; discriminate). done.
Qed.

(** ** Theorems *)

(** on a page that represents a puzzle, [getActiveNeighbors] for a
    corner does not throw, leaves the page unchanged, and returns a
    duplicate-free list of clock ids that are exactly the dials the spec's
    activation rule moves. *)
Theorem getActiveNeighbors_sim p P c :
  represents p P ->
  exists L, getActiveNeighbors (cornerTag c) p = inr (L, p) /\ NoDup L /\
    forall n, n ∈ L <-> exists f s, n = clkName f s /\ Spec.activated P c f s = true.
Proof.
  intros HR. exists (activeNames (pinChk P) (cornerTag c)). split; [|split].
  - apply getActiveNeighbors_ok.
    + intros pn Hpn. by apply (represents_pins _ _ _ HR).
    + apply elem_of_pinNames. exists Front, c. by destruct c.
  - apply js_set_NoDup.
  - intros n. rewrite (sameElems_spec _ _ (activeNames_activationSet P c)), elem_of_clkNamesOf.
    by setoid_rewrite Spec.elem_of_activationSet.
Qed.

(** refinement of the move engine: on a page that represents a puzzle,
    pressing a corner button with direction +1 or -1 never throws; the
    resulting page represents the abstract move of the spec, the pins and
    the side being controlled are unchanged, and a "Solved!" alert is
    scheduled exactly when the resulting puzzle is solved. *)
Theorem applyMove_sim p P c d :
  represents p P -> d = 1 \/ d = -1 ->
  exists p', applyMove (cornerTag c) d p = inr (tt, p') /\
    represents p' (Spec.applyMove P c d) /\
    pinChecked p' = pinChecked p /\ controllingFront p' = controllingFront p /\
    alerts p' = alerts p ++ (if Spec.isSolved (Spec.applyMove P c d) then ["Solved!"] else []).
Proof.
  intros HR Hd. destruct (getActiveNeighbors_sim p P c HR) as (L & HL & Hnd & Hmem).
  destruct (foreach_incrementClk L d p Hnd) as (m & Hrun & Hm).
  { intros n (f & s & -> & _)%Hmem. destruct HR as (_ & Hc & _). by rewrite Hc. }
  pose proof (represents_after_move p P c d L m HR Hd Hmem Hm) as HR'.
  unfold applyMove. cbv [jbind]. rewrite HL, Hrun, (isSolved_represents _ _ HR').
  destruct (Spec.isSolved _); cbv [jget jput jret].
  - eexists; split; [reflexivity|]. split; [|done]. exact HR'.
  - eexists; split; [reflexivity|]. split; [exact HR'|]. simpl. by rewrite app_nil_r.
Qed.

(** C19: the order in which one move turns its clocks does not matter
    (spec 8, commutativity within one move): on any page, running the
    [incrementClk] loop of [applyMove] over any ordering of a
    duplicate-free list of existing clocks gives the page on which each of
    them is turned exactly once and every other clock is unchanged. *)
Theorem applyMove_loop_order (L L' : list string) d p :
  NoDup L -> (forall n, n ∈ L -> is_Some (clk p !! n)) -> L ≡ₚ L' ->
  jforeach (λ n, incrementClk n d) L' p = inr (tt, turnAll L d p).
Proof.
  intros Hnd Hex Hperm.
  destruct (foreach_incrementClk L' d p) as (m & Hrun & Hm).
  { by rewrite <- Hperm. }
  { intros n Hn. apply Hex. by rewrite Hperm. }
  rewrite Hrun. unfold turnAll. do 3 f_equal. apply map_eq. intros k. rewrite Hm, map_lookup_imap.
  destruct (clk p !! k) as [t|]; simpl; [|by case_decide].
  destruct (decide (k ∈ L')) as [H|H]; rewrite <- Hperm in H.
  - by rewrite decide_True.
  - by rewrite decide_False.
Qed.

(** C17: a move that reaches a missing clock fails midway (the spec's
    section 7 says no operation partially applies and fails midway): when
    the list [getActiveNeighbors] returns holds a clock with no element,
    [applyMove] throws a [TypeError] on the first such clock, and the page
    it leaves has every clock before it in the list already turned, each
    once, and every other clock as it was. *)
Theorem applyMove_missing_clock corner d p L1 n L2 :
  getActiveNeighbors corner p = inr (L1 ++ n :: L2, p) ->
  (forall k, k ∈ L1 -> is_Some (clk p !! k)) -> clk p !! n = None ->
  applyMove corner d p = inl (TypeError n, turnAll L1 d p).
Proof.
  intros HL Hex Hn. unfold applyMove. rewrite (jbind_ok _ _ _ _ _ HL).
  apply jbind_err, foreach_incrementClk_fail; [|done|done].
  exact (getActiveNeighbors_NoDup _ _ _ _ HL).
Qed.

(** A page in the state the script leaves after loading: every clock at
    "12", the front pins checked and the back pins not. *)
Definition samplePage : Page :=
  mkPage (list_to_map ((λ n, (n, "12")) <$> clkNames))
         (list_to_map [("pul", true); ("pur", true); ("pdr", true); ("pdl", true);
                       ("bpul", false); ("bpur", false); ("bpdr", false); ("bpdl", false)])
         true (Some "red") (Some "white") [].

Definition samplePuzzle : Spec.Puzzle := Spec.mkPuzzle (λ _ _, 12) (λ _, Front).

(** [represents] on concrete pages and puzzles, by evaluation. *)
Ltac prove_represents :=
  split; [intros ??; simpl; lia|split; intros [] []; vm_compute; reflexivity].

(** C1: The move engine refines the spec's [applyMove] (section 4.4): on a
    page that represents a puzzle, pressing a corner with direction +1 or
    -1 never throws; the resulting page represents the abstract move, the
    pins and the controlled side are unchanged, [isSolved] on it answers
    the abstract [isSolved], and a "Solved!" alert is scheduled exactly
    when the resulting puzzle is solved. *)
Theorem applyMove_refines p P c d :
  represents p P -> d = 1 \/ d = -1 ->
  exists p', applyMove (cornerTag c) d p = inr (tt, p') /\
    represents p' (Spec.applyMove P c d) /\
    isSolved p' = inr (Spec.isSolved (Spec.applyMove P c d), p') /\
    pinChecked p' = pinChecked p /\ controllingFront p' = controllingFront p /\
    alerts p' = alerts p ++ (if Spec.isSolved (Spec.applyMove P c d) then ["Solved!"] else []).
Proof.
  intros HR Hd. destruct (applyMove_sim p P c d HR Hd) as (p' & Hrun & HR' & Hrest).
  exists p'. split; [done|]. split; [done|]. split; [|done]. by apply isSolved_represents.
Qed.

Lemma applyMove_refines_witness :
  (represents samplePage samplePuzzle /\ (1 = 1 \/ 1 = -1)) /\
  exists p', applyMove (cornerTag UL) 1 samplePage = inr (tt, p') /\
    represents p' (Spec.applyMove samplePuzzle UL 1) /\
    isSolved p' = inr (Spec.isSolved (Spec.applyMove samplePuzzle UL 1), p') /\
    pinChecked p' = pinChecked samplePage /\
    controllingFront p' = controllingFront samplePage /\
    alerts p' = alerts samplePage ++
      (if Spec.isSolved (Spec.applyMove samplePuzzle UL 1) then ["Solved!"] else []).
Proof.
  assert (HR : represents samplePage samplePuzzle) by prove_represents.
  split; [split; [exact HR|left; reflexivity]|].
  exact (applyMove_refines samplePage samplePuzzle UL 1 HR (or_introl eq_refl)).
Defined.

(** C2: [getActiveNeighbors] computes the spec's activation set (section 4.3):
    on a page that represents a puzzle it does not throw, leaves the page
    unchanged, and returns a duplicate-free list of clock ids, as long as
    the activation set, holding the id of a dial exactly when the spec's
    rule activates that dial. *)
Theorem getActiveNeighbors_spec p P c :
  represents p P ->
  exists L, getActiveNeighbors (cornerTag c) p = inr (L, p) /\ NoDup L /\
    List.length L = List.length (Spec.activationSet P c) /\
    forall f s, clkName f s ∈ L <-> Spec.activated P c f s = true.
Proof.
  intros HR. destruct (getActiveNeighbors_sim p P c HR) as (L & Hrun & Hnd & Hmem).
  exists L. split; [done|]. split; [done|]. split.
  - rewrite <- (length_fmap (λ fs, clkName fs.1 fs.2)). apply Permutation_length.
    apply NoDup_Permutation; [done| |].
    + apply NoDup_fmap_2_strong; [|apply Spec.activationSet_NoDup].
      intros [f1 s1] [f2 s2] _ _ E. simpl in E. by apply clkName_inj in E as [-> ->].
    + intros n. rewrite Hmem, elem_of_clkNamesOf. by setoid_rewrite Spec.elem_of_activationSet.
  - intros f s. rewrite Hmem.
    split; [intros (f' & s' & E & H); by apply clkName_inj in E as [-> ->]|eauto].
Qed.

Lemma getActiveNeighbors_spec_witness :
  represents samplePage samplePuzzle /\
  exists L, getActiveNeighbors (cornerTag DR) samplePage = inr (L, samplePage) /\ NoDup L /\
    List.length L = List.length (Spec.activationSet samplePuzzle DR) /\
    forall f s, clkName f s ∈ L <-> Spec.activated samplePuzzle DR f s = true.
Proof.
  assert (HR : represents samplePage samplePuzzle) by prove_represents.
  split; [exact HR|exact (getActiveNeighbors_spec samplePage samplePuzzle DR HR)].
Defined.

Lemma applyMove_loop_order_witness :
  (NoDup ["cul"; "cu"] /\ (forall n, n ∈ ["cul"; "cu"] -> is_Some (clk samplePage !! n)) /\
   ["cul"; "cu"] ≡ₚ ["cu"; "cul"]) /\
  jforeach (λ n, incrementClk n 1) ["cu"; "cul"] samplePage =
  inr (tt, turnAll ["cul"; "cu"] 1 samplePage).
Proof.
  assert (H1 : NoDup ["cul"; "cu"]) by (repeat constructor; set_solver).
  assert (H2 : forall n, n ∈ ["cul"; "cu"] -> is_Some (clk samplePage !! n))
    by (intros n Hn; apply list_elem_of_In in Hn; destruct Hn as [<-|[<-|[]]];
        vm_compute; by eexists).
  assert (H3 : ["cul"; "cu"] ≡ₚ ["cu"; "cul"]) by constructor.
  split; [split_and!; [exact H1|exact H2|exact H3]|].
  exact (applyMove_loop_order _ _ 1 samplePage H1 H2 H3).
Defined.

(** The page after loading with the center clock's element missing. *)
Definition pageWithoutCenter : Page := with_clk (delete "cc" (clk samplePage)) samplePage.

Lemma applyMove_missing_clock_witness :
  (getActiveNeighbors "ul" pageWithoutCenter =
     inr (["cul"; "cu"] ++ "cc" :: ["cl"; "cur"; "cr"; "cdr"; "cd"; "cdl";
                                    "bcul"; "bcur"; "bcdr"; "bcdl"], pageWithoutCenter) /\
   (forall k, k ∈ ["cul"; "cu"] -> is_Some (clk pageWithoutCenter !! k)) /\
   clk pageWithoutCenter !! "cc" = None) /\
  applyMove "ul" 1 pageWithoutCenter =
    inl (TypeError "cc", turnAll ["cul"; "cu"] 1 pageWithoutCenter).
Proof.
  assert (H1 : getActiveNeighbors "ul" pageWithoutCenter =
     inr (["cul"; "cu"] ++ "cc" :: ["cl"; "cur"; "cr"; "cdr"; "cd"; "cdl";
                                    "bcul"; "bcur"; "bcdr"; "bcdl"], pageWithoutCenter))
    by (vm_compute; reflexivity).
  assert (H2 : forall k, k ∈ ["cul"; "cu"] -> is_Some (clk pageWithoutCenter !! k))
    by (intros k Hk; apply list_elem_of_In in Hk; destruct Hk as [<-|[<-|[]]];
        vm_compute; by eexists).
  assert (H3 : clk pageWithoutCenter !! "cc" = None) by (vm_compute; reflexivity).
  split; [split_and!; [exact H1|exact H2|exact H3]|].
  exact (applyMove_missing_clock "ul" 1 pageWithoutCenter _ _ _ H1 H2 H3).
Defined.

End Page.
