(* ===== verification/Controls.v ===== *)
(** * Controls: pins, buttons and the solve/scramble shortcuts

    The handlers the page wires to its controls ([script.js] 68-129 and
    196-315 without the keyboard): a click on a pin checkbox toggles it and
    its [onchange] (installed by [invertPins]) sets the partner pin of the
    other face to the opposite; [setPinPositions] writes all eight pins; a
    front button computes its corner and direction from its id and calls
    [applyMove]; a back button clicks its front counterpart; the solve
    button writes "12" into every clock and the scramble button a random
    [padTime] value.  The theorems give each handler's effect on the
    abstract puzzle: a pin click flips that corner's pin, a button press is
    the abstract move of its corner and direction, solve is [resetAll], and
    scramble leaves a valid puzzle. *)

From S2P Require Import Prelude Names Dial Spec Page.
From Stdlib Require Import SpecFloat.
Import Names Dial Page.

Module Controls.
Local Open Scope Z_scope.

(** [pin[n].checked = b] *)
Definition setChecked (n : string) (b : bool) : JS Page unit :=
  p <- jget ;; _ <- jdefined n (pinChecked p !! n) ;;
  jput (with_pins (<[n := b]> (pinChecked p)) p).

(** ** [invertPins], [script.js] 70-82

    The four calls pair each front pin with the back pin of the same
    corner; each pin's [onchange] sets its partner to its negation. *)
Definition invertPinsPairs : list (string * string) :=
  [("pul", "bpul"); ("pur", "bpur"); ("pdr", "bpdr"); ("pdl", "bpdl")].

Definition onchangePartner (n : string) : option string :=
  match list_find (λ pr, pr.1 = n \/ pr.2 = n) invertPinsPairs with
  | Some (_, (front, back)) => Some (if decide (front = n) then back else front)
  | None => None
  end.

(** A user click on a checkbox: the browser toggles [checked], then runs
    the [onchange] handler if one is installed. *)
Definition clickPin (n : string) : JS Page unit :=
  b <- isChecked n ;;
  _ <- setChecked n (negb b) ;;
  match onchangePartner n with
  | Some partner => b' <- isChecked n ;; setChecked partner (negb b')
  | None => jret tt
  end.

(** ** [setPinPositions], [script.js] 197-206

    The arguments are the numbers 0 and 1 of [pinMappings]; assigning a
    number to [checked] stores its truthiness. *)
Definition truthy (z : Z) : bool := negb (Z.eqb z 0).

Definition setPinPositions (ur dr dl ul : Z) : JS Page unit :=
  _ <- setChecked "pur" (truthy ur) ;;
  _ <- setChecked "pdr" (truthy dr) ;;
  _ <- setChecked "pdl" (truthy dl) ;;
  _ <- setChecked "pul" (truthy ul) ;;
  _ <- setChecked "bpur" (negb (truthy ur)) ;;
  _ <- setChecked "bpdr" (negb (truthy dr)) ;;
  _ <- setChecked "bpdl" (negb (truthy dl)) ;;
  setChecked "bpul" (negb (truthy ul)).

(** ** Buttons, [script.js] 114-129 *)

(** The [onclick] of a front button "b<corner><m|p>". *)
Definition frontBtnClick (btnName : string) : JS Page unit :=
  let direction := if char_is btnName 3 "m"%char then -1 else 1 in
  let corner := slice 1 3 btnName in
  applyMove corner direction.

(** [btn[name].click()]: the front buttons run their handler, a back
    button clicks [btn[name.slice(1)]]; an id with no button throws. *)
Definition clickBtn (btnName : string) : JS Page unit :=
  if decide (btnName ∈ take 8 btnNames) then frontBtnClick btnName
  else if decide (btnName ∈ drop 8 btnNames) then
    let frontName := slice_from 1 btnName in
    if decide (frontName ∈ take 8 btnNames) then frontBtnClick frontName
    else jthrow (TypeError frontName)
  else jthrow (TypeError btnName).

(** ** Solve and scramble, [script.js] 300-315 *)

Definition solveClick : JS Page unit :=
  jforeach (λ n, writeClk n "12") clkNames.

(** *** [Math.floor(Math.random() * 12) + 1] in binary64

    A double is kept as its value [mant * 2^expo].  [Math.random()] returns
    a double in [0, 1): every such double is [mant * 2^expo] with
    [0 <= mant < 2^53] and [-1074 <= expo <= -53].  The product by 12 is
    rounded to the nearest double, ties to even: as [12 = 3 * 2^2], it is
    [3 * mant] rounded to 53 significant bits, times [2^(expo + 2)] (the
    result is neither subnormal nor infinite).  [Math.floor] of a
    nonnegative double is the integer part, a right shift. *)
Record double := mkDouble { mant : Z; expo : Z }.

Definition randomDouble (r : double) : Prop :=
  0 <= mant r < 2^53 /\ -1074 <= expo r <= -53.

(** [n >= 0] rounded to 53 significant bits, to nearest, ties to even. *)
Definition round53 (n : Z) : Z :=
  let s := Z.log2 n - 52 in
  if s <=? 0 then n else
  let q := n / 2^s in
  let r := n mod 2^s in
  if (2^(s - 1) <? r) || ((r =? 2^(s - 1)) && Z.odd q) then (q + 1) * 2^s else q * 2^s.

(** [x * 12] *)
Definition mul12 (x : double) : double := mkDouble (round53 (3 * mant x)) (expo x + 2).

(** [Math.floor(x)] for [x >= 0] *)
Definition mathFloor (x : double) : Z := Z.shiftr (mant x) (- expo x).

Definition randomTime (r : double) : Z := mathFloor (mul12 r) + 1.

(** The [i]-th call of [Math.random()] returns [rnd i]. *)
Definition scrambleClick (rnd : nat -> double) : JS Page unit :=
  jforeach (λ it, writeClk it.2 (padTime (Int (randomTime (rnd it.1)))))
           (zip (seq 0 (List.length clkNames)) clkNames).

(** The id of the button of face [f] at corner [c], "p" for the plus
    direction and "m" for minus. *)
Definition btnId (f : Face) (c : Corner) (plus : bool) : string :=
  String.append (facePrefix f)
    (String.append "b" (String.append (cornerTag c) (if plus then "p" else "m"))).

Definition btnDir (plus : bool) : Z := if plus then 1 else -1.

(** The face whose pin [setPinPositions] raises for a [pinMappings] entry. *)
Definition faceOf (z : Z) : Face := if truthy z then Front else Back.

(** The position of a dial in [clkNames], i.e. which [Math.random()] call
    of the scramble loop draws its value. *)
Definition dialIndex (f : Face) (s : Spot) : nat :=
  (match f with Front => 0 | Back => 9 end +
   match s with
   | SUL => 0 | SUR => 1 | SDR => 2 | SDL => 3 | SU => 4 | SR => 5 | SD => 6 | SL => 7 | SC => 8
   end)%nat.

(** ** Lemmas *)

Lemma btnNames_enum :
  btnNames = (λ fcp, btnId fcp.1.1 fcp.1.2 fcp.2)
               <$> [(Front, UL, false); (Front, UL, true); (Front, UR, false); (Front, UR, true);
                    (Front, DR, false); (Front, DR, true); (Front, DL, false); (Front, DL, true);
                    (Back, UL, false); (Back, UL, true); (Back, UR, false); (Back, UR, true);
                    (Back, DR, false); (Back, DR, true); (Back, DL, false); (Back, DL, true)].
Proof. reflexivity. Qed.

Lemma setChecked_ok p n b :
  is_Some (pinChecked p !! n) ->
  setChecked n b p = inr (tt, with_pins (<[n := b]> (pinChecked p)) p).
Proof. intros [b0 H]. cbv [setChecked jbind jget jdefined jret jput]. by rewrite H. Qed.

Lemma onchangePartner_pinName f c :
  onchangePartner (pinName f c) = Some (pinName (opposite f) c).
Proof. destruct f, c; reflexivity. Qed.

Lemma writeClk_ok p n t :
  is_Some (clk p !! n) -> writeClk n t p = inr (tt, with_clk (<[n := t]> (clk p)) p).
Proof. intros [t0 H]. cbv [writeClk jbind jget jdefined jret jput]. by rewrite H. Qed.

Lemma represents_pin_present p P n :
  represents p P -> n ∈ pinNames -> is_Some (pinChecked p !! n).
Proof. intros HR Hn. rewrite (represents_pins _ _ _ HR Hn). by eexists. Qed.

Lemma pins_setPin P c g c' :
  Spec.pins (Spec.setPin P c g) c' = if decide (c' = c) then g else Spec.pins P c'.
Proof. done. Qed.

(** ** Lemmas: the controls keep the page's elements *)

Lemma setChecked_shape n b : preserves sameShape (setChecked n b).
Proof.
  constructor. intros p. unfold setChecked, jbind, jget, jdefined, jput, jret, jthrow.
  destruct (pinChecked p !! n) eqn:E; simpl; [|reflexivity].
  apply sameShape_pins. apply dom_insert_lookup_L. by eexists.
Qed.

#[export] Hint Resolve setChecked_shape : preserves.

Lemma clickPin_shape n : preserves sameShape (clickPin n).
Proof. unfold clickPin. solve_preserves. Qed.

Lemma setPinPositions_shape ur dr dl ul : preserves sameShape (setPinPositions ur dr dl ul).
Proof. unfold setPinPositions. solve_preserves. Qed.

Lemma clickBtn_shape n : preserves sameShape (clickBtn n).
Proof. unfold clickBtn, frontBtnClick. solve_preserves. Qed.

Lemma solveClick_shape : preserves sameShape solveClick.
Proof. unfold solveClick. solve_preserves. Qed.

Lemma scrambleClick_shape rnd : preserves sameShape (scrambleClick rnd).
Proof. unfold scrambleClick. solve_preserves. Qed.

#[export] Hint Resolve clickPin_shape setPinPositions_shape clickBtn_shape solveClick_shape
  scrambleClick_shape : preserves.

(** ** Theorems *)

(** every button id decodes to its corner and direction, and a back
    button does exactly what its front counterpart does: clicking the
    button of face [f] at corner [c] runs [applyMove] on the corner's tag
    with +1 for "p" and -1 for "m". *)
Theorem clickBtn_decode f c plus :
  clickBtn (btnId f c plus) = applyMove (cornerTag c) (btnDir plus).
Proof. destruct f, c, plus; reflexivity. Qed.

(** a button press refines the abstract move: on a page that
    represents a puzzle it does not throw and leaves a page representing
    the move of its corner in its direction. *)
Corollary clickBtn_sim p P f c plus :
  represents p P ->
  exists p', clickBtn (btnId f c plus) p = inr (tt, p') /\
    represents p' (Spec.applyMove P c (btnDir plus)).
Proof.
  intros HR. rewrite clickBtn_decode.
  destruct (applyMove_sim p P c (btnDir plus) HR) as (p' & Hrun & HR' & _);
    [destruct plus; [left|right]; reflexivity|].
  by exists p'.
Qed.

(** a click on either pin of a corner flips that corner's pin pair:
    the clicked checkbox toggles and its [onchange] sets the partner to
    the opposite, so exactly one pin of the pair stays raised, and the
    page represents the abstract puzzle with the pin flipped. *)
Theorem clickPin_sim p P f c :
  represents p P ->
  exists p', clickPin (pinName f c) p = inr (tt, p') /\
    represents p' (Spec.flipPin P c) /\ clk p' = clk p.
Proof.
  intros HR. destruct HR as (HV & Hc & Hp) eqn:EHR.
  unfold clickPin.
  rewrite (jbind_ok _ _ _ _ _ (isChecked_ok _ _ _ (Hp f c))).
  rewrite (jbind_ok _ _ _ _ _ (setChecked_ok _ _ _ ltac:(by eexists))).
  rewrite onchangePartner_pinName.
  rewrite (jbind_ok _ _ _ _ _ (isChecked_ok _ _ _ (lookup_insert_eq _ _ _))).
  rewrite setChecked_ok; cycle 1.
  { simpl. rewrite lookup_insert_ne; [by eexists|].
    intros [? _]%pinName_inj. by destruct f. }
  eexists; split; [reflexivity|]. split; [|done].
  split; [done|split; [done|]].
  intros f' c'. unfold Spec.flipPin. rewrite pins_setPin. cbn [pinChecked with_pins].
  rewrite !lookup_insert.
  destruct (decide (pinName (opposite f) c = pinName f' c')) as [[<- <-]%pinName_inj|Hne1].
  { rewrite decide_True by done. destruct f, (Spec.pins P c); reflexivity. }
  destruct (decide (pinName f c = pinName f' c')) as [[<- <-]%pinName_inj|Hne2].
  { rewrite decide_True by done. destruct f, (Spec.pins P c); reflexivity. }
  rewrite Hp. destruct (decide (c' = c)) as [->|]; [|done].
  destruct f, f'; done.
Qed.

(** ** Loops that write clocks *)

Section WriteLoop.
Context {A : Type} (key : A -> string) (txt : A -> string).

Definition writeAll (L : list A) (m : gmap string string) : gmap string string :=
    fold_left (λ m x, <[key x := txt x]> m) L m.

Lemma foreach_writeClk (L : list A) p :
    (forall x, x ∈ L -> is_Some (clk p !! key x)) ->
    jforeach (λ x, writeClk (key x) (txt x)) L p = inr (tt, with_clk (writeAll L (clk p)) p).
  Proof.
    revert p. induction L as [|x L IH]; intros p Hex; [by destruct p|].
    simpl. rewrite (jbind_ok _ _ _ _ _ (writeClk_ok _ _ _ (Hex x ltac:(set_solver)))).
    rewrite IH; [done|]. intros y Hy. cbn [clk with_clk].
    apply lookup_insert_is_Some'. right. apply Hex. set_solver.
  Qed.

Lemma writeAll_notin (L : list A) m k :
    k ∉ key <$> L -> writeAll L m !! k = m !! k.
  Proof.
    revert m. induction L as [|x L IH]; intros m Hk; [done|]. simpl.
    rewrite fmap_cons, not_elem_of_cons in Hk. destruct Hk as [Hne Hk].
    rewrite IH by done. by rewrite lookup_insert_ne.
  Qed.

Lemma writeAll_in (L : list A) m x :
    NoDup (key <$> L) -> x ∈ L -> writeAll L m !! key x = Some (txt x).
  Proof.
    revert m. induction L as [|y L IH]; intros m Hnd Hx; [set_solver|]. simpl.
    rewrite fmap_cons in Hnd. apply NoDup_cons in Hnd as [Hy Hnd].
    apply elem_of_cons in Hx as [->|Hx]; [|by apply IH].
    rewrite writeAll_notin by done. apply lookup_insert_eq.
  Qed.
End WriteLoop.

Lemma represents_clk_present p P n :
  represents p P -> n ∈ clkNames -> is_Some (clk p !! n).
Proof.
  intros (_ & Hc & _) (f & s & ->)%elem_of_clkNames. rewrite Hc. by eexists.
Qed.

(** The rounded significand of [3 * mant] stays below [3 * 2^53]: the
    largest draw rounds down. *)
Lemma round53_bound n : 0 <= n <= 3 * 2^53 - 3 -> 0 <= round53 n <= 3 * 2^53 - 4.
Proof.
  intros Hn. unfold round53; cbv zeta. destruct (decide (n = 0)) as [->|Hn0]; [done|].
  assert (H53 : 2^53 = 9007199254740992) by reflexivity.
  assert (H54 : 2^54 = 18014398509481984) by reflexivity.
  assert (H55 : Z.log2 n < 55) by (apply Z.log2_lt_pow2; lia).
  destruct (Z.leb_spec (Z.log2 n - 52) 0) as [Hs|Hs].
  { assert (n < 2^53) by (apply Z.log2_lt_pow2; lia). lia. }
  assert (Hc : Z.log2 n = 53 \/ Z.log2 n = 54) by lia.
  destruct Hc as [E|E]; rewrite E.
  - assert (n < 2^54) by (apply Z.log2_lt_pow2; lia).
    change (2^(53 - 52)) with 2. change (2^(53 - 52 - 1)) with 1.
    destruct (Z.ltb_spec 1 (n mod 2)), (Z.eqb_spec (n mod 2) 1), (Z.odd (n / 2)); cbn [orb andb]; Z.div_mod_to_equations; lia.
  - change (2^(54 - 52)) with 4. change (2^(54 - 52 - 1)) with 2.
    destruct (Z.ltb_spec 2 (n mod 4)), (Z.eqb_spec (n mod 4) 2), (Z.odd (n / 4)); cbn [orb andb]; Z.div_mod_to_equations; lia.
Qed.

Lemma randomTime_range (r : double) : randomDouble r -> 1 <= randomTime r <= 12.
Proof.
  intros [Hm He]. unfold randomTime, mathFloor, mul12. cbn [mant expo].
  pose proof (round53_bound (3 * mant r) ltac:(lia)) as Hb.
  rewrite Z.shiftr_div_pow2 by lia.
  assert (Hk : 2^51 <= 2^(- (expo r + 2))) by (apply Z.pow_le_mono_r; lia).
  assert (H11 : (3 * 2^53 - 4) / 2^51 = 11) by reflexivity.
  assert (0 <= round53 (3 * mant r) / 2^(- (expo r + 2))) by (apply Z.div_pos; lia).
  assert (round53 (3 * mant r) / 2^(- (expo r + 2)) <= round53 (3 * mant r) / 2^51)
    by (apply Z.div_le_compat_l; lia).
  assert (round53 (3 * mant r) / 2^51 <= (3 * 2^53 - 4) / 2^51) by (apply Z.div_le_mono; lia).
  lia.
Qed.

(** The rounding agrees with the Standard Library's binary64 multiplication
    ([SFmul 53 1024]) on the draw nearest 1/12, whose product is exactly 1
    (so the clock shows "02"), and on the largest draw. *)
Lemma mul12_binary64 :
  SFmul 53 1024 (S754_finite false 6004799503160661 (-56)) (S754_finite false 3 2) =
    S754_finite false 4503599627370496 (-52) /\
  mul12 (mkDouble 6004799503160661 (-56)) = mkDouble (4503599627370496 * 4) (-54) /\
  SFmul 53 1024 (S754_finite false 9007199254740991 (-53)) (S754_finite false 3 2) =
    S754_finite false 6755399441055743 (-49) /\
  mul12 (mkDouble 9007199254740991 (-53)) = mkDouble (6755399441055743 * 4) (-51).
Proof. split_and!; vm_compute; reflexivity. Qed.

(** the solve shortcut writes "12" into every clock: on a page that
    represents a puzzle it does not throw and the page represents the
    puzzle with every dial reset to 12 (and the pins untouched). *)
Theorem solveClick_sim p P :
  represents p P ->
  exists p', solveClick p = inr (tt, p') /\ represents p' (Spec.resetAll P) /\
    pinChecked p' = pinChecked p.
Proof.
  intros HR. pose proof (foreach_writeClk (λ n, n) (λ _, "12") clkNames p) as H.
  cbv beta in H. unfold solveClick. rewrite H; cycle 1.
  { intros n Hn. by apply (represents_clk_present _ P). }
  eexists; split; [reflexivity|]. split; [|done].
  destruct HR as (_ & _ & Hp). split; [intros ??; simpl; lia|split; [|exact Hp]].
  intros f s. cbn [clk with_clk]. rewrite (writeAll_in (λ n, n) (λ _, "12")); [done|..].
  - rewrite list_fmap_id. apply clkNames_NoDup.
  - apply elem_of_clkNames. eauto.
Qed.

(** the scramble shortcut draws one value per clock: when every
    [Math.random()] result lies in [0, 1) it does not throw, and the page
    represents the puzzle whose dial [(f, s)] is [floor(12 r) + 1] for the
    draw of that clock's position in [clkNames], a value in 1..12. *)
Theorem scrambleClick_sim p P (rnd : nat -> double) :
  represents p P -> (forall i, randomDouble (rnd i)) ->
  exists p', scrambleClick rnd p = inr (tt, p') /\
    represents p' (Spec.randomizeAll P (λ f s, randomTime (rnd (dialIndex f s)))) /\
    pinChecked p' = pinChecked p.
Proof.
  intros HR Hrnd.
  pose proof (foreach_writeClk snd (λ it, padTime (Int (randomTime (rnd it.1))))
                (zip (seq 0 (List.length clkNames)) clkNames) p) as H.
  cbv beta in H. unfold scrambleClick. rewrite H; cycle 1.
  { intros [i n] Hin. apply (represents_clk_present _ P _ HR).
    by apply elem_of_zip_r in Hin. }
  eexists; split; [reflexivity|]. split; [|done].
  destruct HR as (_ & _ & Hp). split; [intros f s; apply randomTime_range, Hrnd|].
  split; [|exact Hp]. intros f s. cbn [clk with_clk].
  rewrite (writeAll_in snd (λ it, padTime (Int (randomTime (rnd it.1)))) _ _
             (dialIndex f s, clkName f s)); [done| |].
  - change (snd <$> zip (seq 0 (List.length clkNames)) clkNames) with clkNames.
    apply clkNames_NoDup.
  - apply list_elem_of_In. destruct f, s; simpl; repeat first [left; reflexivity | right].
Qed.

(** A pin write inside a chain of writes, on a page whose pins exist. *)
Ltac run_setChecked Hpins :=
  repeat match goal with
  | |- context [jbind (setChecked ?n ?b) ?k ?q] =>
      let H := fresh in
      assert (H : is_Some (pinChecked q !! n))
        by (cbn [pinChecked with_pins]; repeat (apply lookup_insert_is_Some'; right);
            apply Hpins; apply list_elem_of_In; simpl; tauto);
      rewrite (jbind_ok _ _ _ _ _ (setChecked_ok q n b H)); clear H
  end.

(** [setPinPositions] on any page whose eight pins exist: it does not
    throw, writes exactly the eight pins, and at every corner raises the
    front pin when its argument is truthy and the back pin otherwise. *)
Lemma setPinPositions_ok p ur dr dl ul :
  (forall n, n ∈ pinNames -> is_Some (pinChecked p !! n)) ->
  exists m, setPinPositions ur dr dl ul p = inr (tt, with_pins m p) /\
    dom m = dom (pinChecked p) /\
    forall f c, m !! pinName f c =
      Some (bool_decide (Spec.pinsOf (faceOf ul) (faceOf ur) (faceOf dr) (faceOf dl) c = f)).
Proof.
  intros Hpins. unfold setPinPositions. run_setChecked Hpins.
  rewrite setChecked_ok; cycle 1.
  { cbn [pinChecked with_pins]. repeat (apply lookup_insert_is_Some'; right).
    apply Hpins. apply list_elem_of_In; simpl; tauto. }
  eexists; split; [reflexivity|]. cbn [pinChecked with_pins]. split.
  - rewrite !dom_insert_L. apply set_eq. intros n. rewrite !elem_of_union, !elem_of_singleton.
    split; [|tauto]. intros Hn. repeat destruct Hn as [->|Hn]; try done;
      apply elem_of_dom, Hpins, list_elem_of_In; simpl; tauto.
  - intros f c. unfold faceOf.
    destruct f, c; rewrite !lookup_insert; simpl;
      match goal with |- context [truthy ?z] => destruct (truthy z) end; reflexivity.
Qed.

(** [setPinPositions] (the pin keys and the page load) raises, at
    every corner, the front pin when its argument is truthy and the back
    pin otherwise: on a page that represents a puzzle it does not throw,
    keeps the clocks, and the page represents the puzzle with exactly
    those pins raised, one per corner. *)
Theorem setPinPositions_sim p P ur dr dl ul :
  represents p P ->
  exists p', setPinPositions ur dr dl ul p = inr (tt, p') /\
    represents p' (Spec.mkPuzzle (Spec.dial P)
                     (Spec.pinsOf (faceOf ul) (faceOf ur) (faceOf dr) (faceOf dl))) /\
    clk p' = clk p.
Proof.
  intros HR. destruct (setPinPositions_ok p ur dr dl ul) as (m & Hrun & _ & Hm).
  { intros n. by apply represents_pin_present with P. }
  exists (with_pins m p). split; [done|]. split; [|done].
  destruct HR as (HV & Hc & _). by split; [|split].
Qed.

(** C24: A back button does exactly what its front counterpart does (spec
    4.4): clicking the back button of a corner and direction runs the same
    handler as clicking the front one. *)
Theorem back_button_same_as_front c plus :
  clickBtn (btnId Back c plus) = clickBtn (btnId Front c plus).
Proof. by rewrite !clickBtn_decode. Qed.

End Controls.
