(* ===== verification/Keyboard.v ===== *)
(** * Keyboard: the key tables and the [keydown] handler

    [script.js] 208-294: [pinMappings] sends a key to the four pin flags
    (ur, dr, dl, ul) given to [setPinPositions], [btnMappings] a key to the
    id of a front button, and [keyMappingsBack] translates a key pressed
    while the back face is controlled into the key that does the same
    thing seen from the front.  The space bar toggles the controlled face.
    The theorems check the tables: the back translation is an involution,
    it mirrors every pin pattern left-right and swaps raised and lowered
    pins, and it mirrors every button left-right with the opposite
    direction; a button key makes its button's move as the user sees it
    (mirrored with the opposite direction from the back); the space bar
    switches the controlled face and its outlines from either view; a key
    press never throws on a page that represents a
    puzzle with both face outlines; and each of the sixteen pin settings is
    the effect of some key, whichever face is controlled. *)

From S2P Require Import Prelude Names Dial Spec Page Controls.
Import Names Dial Page Controls.

Module Keyboard.
Local Open Scope Z_scope.

Definition pinMappings : list (string * list Z) :=
  [("j", [1; 0; 0; 0]); ("k", [0; 1; 0; 0]); ("l", [0; 0; 1; 0]); (";", [0; 0; 0; 1]);
   ("u", [1; 0; 0; 1]); ("i", [1; 1; 0; 0]); ("o", [0; 1; 1; 0]); ("p", [0; 0; 1; 1]);
   ("n", [0; 1; 1; 1]); ("m", [1; 0; 1; 1]); (",", [1; 1; 0; 1]); (".", [1; 1; 1; 0]);
   ("h", [0; 1; 0; 1]); ("g", [1; 0; 1; 0]); ("y", [1; 1; 1; 1]); ("t", [0; 0; 0; 0])].

Definition btnMappings : list (string * string) :=
  [("a", "bulm"); ("s", "bulp"); ("d", "burm"); ("f", "burp");
   ("z", "bdlp"); ("x", "bdlm"); ("c", "bdrp"); ("v", "bdrm")].

Definition keyMappingsBack : list (string * string) :=
  [("j", "."); ("k", ","); ("l", "m"); (";", "n"); ("u", "o"); ("i", "i"); ("o", "u");
   ("p", "p"); ("n", ";"); ("m", "l"); (",", "k"); (".", "j"); ("h", "h"); ("g", "g");
   ("y", "t"); ("t", "y");
   ("a", "f"); ("s", "d"); ("d", "s"); ("f", "a"); ("z", "v"); ("x", "c"); ("c", "x");
   ("v", "z");
   (" ", " ")].

(** [obj[key]] on an object literal: [undefined] for a key it does not
    define.  ([key in obj] would also see [Object.prototype]'s property
    names, none of which is a [KeyboardEvent.key] value.) *)
Definition prop {A} (key : string) (obj : list (string * A)) : option A :=
  snd <$> (snd <$> list_find (λ kv, kv.1 = key) obj).

(** [frontFace.style.borderColor = color] and the same on [backFace]:
    the assignment throws when the element is null. *)
Definition setFrontBorder (color : string) : JS Page unit :=
  p <- jget ;; _ <- jdefined "frontFace" (frontBorder p) ;;
  jput (with_borders (Some color) (backBorder p) p).
Definition setBackBorder (color : string) : JS Page unit :=
  p <- jget ;; _ <- jdefined "backFace" (backBorder p) ;;
  jput (with_borders (frontBorder p) (Some color) p).

(** [toggleControllingFront], [script.js] 274-283: the flag is flipped
    before the outlines are recoloured. *)
Definition toggleControllingFront : JS Page unit :=
  p <- jget ;;
  _ <- jput (with_controllingFront (negb (controllingFront p)) p) ;;
  p <- jget ;;
  if controllingFront p then (_ <- setFrontBorder "red" ;; setBackBorder "white")
  else (_ <- setFrontBorder "white" ;; setBackBorder "red").

(** [setPinPositions(...arr)]: a missing argument is [undefined], falsy
    like 0. *)
Definition spreadPins (arr : list Z) : JS Page unit :=
  setPinPositions (nth 0 arr 0) (nth 1 arr 0) (nth 2 arr 0) (nth 3 arr 0).

(** The [keydown] listener, [script.js] 285-294. *)
Definition keydown (eventKey : string) : JS Page unit :=
  p <- jget ;;
  let key := if controllingFront p then Some eventKey else prop eventKey keyMappingsBack in
  match key with
  | None => jret tt
  | Some key =>
      match prop key pinMappings with
      | Some arr => spreadPins arr
      | None =>
          match prop key btnMappings with
          | Some b => clickBtn b
          | None => if decide (key = " ") then toggleControllingFront else jret tt
          end
      end
  end.

(** ** Mirror images, for the back view *)

Definition mirrorCorner (c : Corner) : Corner :=
  match c with UL => UR | UR => UL | DR => DL | DL => DR end.

(** A [pinMappings] pattern (ur, dr, dl, ul) seen from the back: left and
    right swap, and a raised back pin is a lowered front pin. *)
Definition mirrorPins (v : list Z) : list Z :=
  match v with
  | [ur; dr; dl; ul] => [1 - ul; 1 - dl; 1 - dr; 1 - ur]
  | _ => v
  end.

(** ** Lemmas *)

Lemma prop_Some {A} (k : string) (obj : list (string * A)) (v : A) :
  prop k obj = Some v -> (k, v) ∈ obj.
Proof.
  unfold prop. destruct (list_find _ _) as [[i [k' v']]|] eqn:E; [|done].
  simpl. intros [= ->]. apply list_find_Some in E as (Hi & Hk & _). simpl in Hk. subst.
  by eapply list_elem_of_lookup_2.
Qed.

(** Case analysis on a membership in a concrete table: one goal per row. *)
Ltac table_cases H :=
  cbv [btnMappings pinMappings keyMappingsBack] in H;
  repeat match type of H with
  | _ ∈ _ :: _ => apply elem_of_cons in H as [H|H]; [injection H as -> ->|]
  | _ ∈ [] => by apply elem_of_nil in H
  end.

Ltac pick_btn :=
  first [ exists UL, false; split; reflexivity | exists UL, true; split; reflexivity
        | exists UR, false; split; reflexivity | exists UR, true; split; reflexivity
        | exists DR, false; split; reflexivity | exists DR, true; split; reflexivity
        | exists DL, false; split; reflexivity | exists DL, true; split; reflexivity ].

(** Evaluate the closed table lookups of a goal. *)
Ltac eval_props :=
  repeat match goal with
  | |- context [prop ?k ?m] => let v := eval vm_compute in (prop k m) in change (prop k m) with v
  end.

Lemma btnMappings_btnId k b :
  prop k btnMappings = Some b -> exists c plus, b = btnId Front c plus /\ True.
Proof. intros H%prop_Some. table_cases H; pick_btn. Qed.

Lemma represents_same_state p p' P :
  clk p' = clk p -> pinChecked p' = pinChecked p -> represents p P -> represents p' P.
Proof. intros Hc Hp (HV & H1 & H2). split; [done|]. rewrite Hc, Hp. by split. Qed.

(** The controls keep the page's elements: recolouring an outline keeps
    it present. *)
Lemma setFrontBorder_shape color : preserves sameShape (setFrontBorder color).
Proof.
  constructor. intros p. unfold setFrontBorder, jbind, jget, jdefined, jput, jret, jthrow.
  destruct (frontBorder p) eqn:E; simpl; [|reflexivity].
  split_and!; [done|done| |done]. rewrite E. split; by eexists.
Qed.

Lemma setBackBorder_shape color : preserves sameShape (setBackBorder color).
Proof.
  constructor. intros p. unfold setBackBorder, jbind, jget, jdefined, jput, jret, jthrow.
  destruct (backBorder p) eqn:E; simpl; [|reflexivity].
  split_and!; [done|done|done|]. rewrite E. split; by eexists.
Qed.

#[export] Hint Resolve setFrontBorder_shape setBackBorder_shape : preserves.

Lemma keydown_shape key : preserves sameShape (keydown key).
Proof. unfold keydown, spreadPins, toggleControllingFront. solve_preserves. Qed.

#[export] Hint Resolve keydown_shape : preserves.

(** Try every key of [pinMappings] until one has the wanted pattern. *)
Ltac pick_pin_key :=
  first [ (exists "j"; eexists _, _; split_and!; reflexivity)
        | (exists "k"; eexists _, _; split_and!; reflexivity)
        | (exists "l"; eexists _, _; split_and!; reflexivity)
        | (exists ";"; eexists _, _; split_and!; reflexivity)
        | (exists "u"; eexists _, _; split_and!; reflexivity)
        | (exists "i"; eexists _, _; split_and!; reflexivity)
        | (exists "o"; eexists _, _; split_and!; reflexivity)
        | (exists "p"; eexists _, _; split_and!; reflexivity)
        | (exists "n"; eexists _, _; split_and!; reflexivity)
        | (exists "m"; eexists _, _; split_and!; reflexivity)
        | (exists ","; eexists _, _; split_and!; reflexivity)
        | (exists "."; eexists _, _; split_and!; reflexivity)
        | (exists "h"; eexists _, _; split_and!; reflexivity)
        | (exists "g"; eexists _, _; split_and!; reflexivity)
        | (exists "y"; eexists _, _; split_and!; reflexivity)
        | (exists "t"; eexists _, _; split_and!; reflexivity) ].

(** Each of the sixteen pin settings has a key, whichever face is
    controlled: the table lists all sixteen patterns, and the back
    translation permutes the pin keys. *)
Lemma pin_key (cf : bool) (ul ur dr dl : Face) :
  exists key k arr, (if cf then Some key else prop key keyMappingsBack) = Some k /\
    prop k pinMappings = Some arr /\
    faceOf (nth 3 arr 0) = ul /\ faceOf (nth 0 arr 0) = ur /\
    faceOf (nth 1 arr 0) = dr /\ faceOf (nth 2 arr 0) = dl.
Proof. destruct cf, ul, ur, dr, dl; pick_pin_key. Qed.

Lemma keydown_pin_key p P ul ur dr dl :
  represents p P ->
  exists key p', keydown key p = inr (tt, p') /\
    represents p' (Spec.mkPuzzle (Spec.dial P) (Spec.pinsOf ul ur dr dl)).
Proof.
  intros HR.
  destruct (pin_key (controllingFront p) ul ur dr dl) as (key & k & arr & Hk & Harr & <- & <- & <- & <-).
  exists key. unfold keydown. rewrite (jbind_ok _ _ p p p eq_refl). cbv beta zeta.
  rewrite Hk, Harr. unfold spreadPins.
  destruct (setPinPositions_sim p P (nth 0 arr 0) (nth 1 arr 0) (nth 2 arr 0) (nth 3 arr 0) HR)
    as (p' & Hrun & HR' & _).
  by exists p'.
Qed.

(** ** Theorems *)

(** C28: the back-view key translation is an involution: translating a
    translated key gives the key back. *)
Theorem keyMappingsBack_involutive k kb :
  prop k keyMappingsBack = Some kb -> prop kb keyMappingsBack = Some k.
Proof. intros H%prop_Some. table_cases H; reflexivity. Qed.

Lemma keyMappingsBack_involutive_witness :
  prop "j" keyMappingsBack = Some "." /\ prop "." keyMappingsBack = Some "j".
Proof.
  assert (H : prop "j" keyMappingsBack = Some ".") by reflexivity.
  split; [exact H | exact (keyMappingsBack_involutive "j" "." H)].
Defined.

(** C29: seen from the back, a pin key sets the left-right mirror image of
    its front pattern with raised and lowered exchanged: the back
    translation of every key of [pinMappings] is a key whose pattern is
    [mirrorPins] of the original. *)
Theorem keyMappingsBack_mirror_pins k v :
  prop k pinMappings = Some v ->
  (prop k keyMappingsBack ≫= λ kb, prop kb pinMappings) = Some (mirrorPins v).
Proof. intros H%prop_Some. table_cases H; reflexivity. Qed.

Lemma keyMappingsBack_mirror_pins_witness :
  prop "u" pinMappings = Some [1; 0; 0; 1] /\
  (prop "u" keyMappingsBack ≫= λ kb, prop kb pinMappings) = Some (mirrorPins [1; 0; 0; 1]).
Proof.
  assert (H : prop "u" pinMappings = Some [1; 0; 0; 1]) by reflexivity.
  split; [exact H | exact (keyMappingsBack_mirror_pins "u" _ H)].
Defined.

(** C30: seen from the back, a button key presses the left-right mirror
    button with the opposite direction (counter/clockwise are relative to
    the front face). *)
Theorem keyMappingsBack_mirror_btns k c plus :
  prop k btnMappings = Some (btnId Front c plus) ->
  (prop k keyMappingsBack ≫= λ kb, prop kb btnMappings) =
  Some (btnId Front (mirrorCorner c) (negb plus)).
Proof.
  intros H%prop_Some. cbv [btnMappings] in H.
  repeat (apply elem_of_cons in H as [H|H];
          [injection H as -> E; destruct c, plus; (discriminate E || reflexivity)|]).
  by apply elem_of_nil in H.
Qed.

Lemma keyMappingsBack_mirror_btns_witness :
  prop "a" btnMappings = Some (btnId Front UL false) /\
  (prop "a" keyMappingsBack ≫= λ kb, prop kb btnMappings) =
  Some (btnId Front (mirrorCorner UL) (negb false)).
Proof.
  assert (H : prop "a" btnMappings = Some (btnId Front UL false)) by reflexivity.
  split; [exact H | exact (keyMappingsBack_mirror_btns "a" UL false H)].
Defined.

(** C27: a button key makes the move of its button as the user sees it:
    on a page that represents a puzzle, the key of [btnMappings] for the
    front button of corner [c] and direction [plus] makes that abstract
    move while the front is controlled; while the back is controlled it
    makes the move of the mirror corner in the opposite direction, which
    is the same corner and the same sense of rotation seen from behind. *)
Theorem keydown_btn p P k c plus :
  represents p P -> prop k btnMappings = Some (btnId Front c plus) ->
  exists p', keydown k p = inr (tt, p') /\
    represents p' (if controllingFront p then Spec.applyMove P c (btnDir plus)
                   else Spec.applyMove P (mirrorCorner c) (btnDir (negb plus))).
Proof.
  intros HR Hk%prop_Some. unfold keydown. rewrite (jbind_ok _ _ p p p eq_refl).
  cbv [btnMappings] in Hk.
  repeat (apply elem_of_cons in Hk as [Hk|Hk];
          [injection Hk as -> E; destruct c, plus; try discriminate E;
           destruct (controllingFront p); eval_props; cbn iota beta;
           lazymatch goal with
           | |- context [Spec.applyMove P ?c' (btnDir ?pl)] => exact (clickBtn_sim p P Front c' pl HR)
           end|]).
  by apply elem_of_nil in Hk.
Qed.

Lemma keydown_btn_witness :
  (represents (with_controllingFront false samplePage) samplePuzzle /\
   prop "a" btnMappings = Some (btnId Front UL false)) /\
  exists p', keydown "a" (with_controllingFront false samplePage) = inr (tt, p') /\
    represents p'
      (if controllingFront (with_controllingFront false samplePage)
       then Spec.applyMove samplePuzzle UL (btnDir false)
       else Spec.applyMove samplePuzzle (mirrorCorner UL) (btnDir (negb false))).
Proof.
  assert (HR : represents (with_controllingFront false samplePage) samplePuzzle)
    by prove_represents.
  assert (Hk : prop "a" btnMappings = Some (btnId Front UL false)) by reflexivity.
  split; [split; [exact HR|exact Hk]|exact (keydown_btn _ _ "a" UL false HR Hk)].
Defined.

(** C32: the space bar switches the controlled face from either view: on a
    page with both face outlines, " " (its own back translation) flips
    [controllingFront] and outlines the newly controlled face in red and
    the other in white, and leaves the clocks and pins as they were. *)
Theorem keydown_space p :
  facesPresent p ->
  exists p', keydown " " p = inr (tt, p') /\
    controllingFront p' = negb (controllingFront p) /\
    frontBorder p' = Some (if controllingFront p then "white" else "red") /\
    backBorder p' = Some (if controllingFront p then "red" else "white") /\
    clk p' = clk p /\ pinChecked p' = pinChecked p.
Proof.
  intros [[fb Hfb] [bb Hbb]]. unfold keydown. rewrite (jbind_ok _ _ p p p eq_refl).
  destruct p as [c0 k0 [] f0 b0 a0]; cbn [controllingFront frontBorder backBorder] in *; subst;
    do 2 (eval_props; cbn iota beta); rewrite decide_True by done;
    cbv [toggleControllingFront setFrontBorder setBackBorder jbind jget jput jdefined jret];
    cbn; eexists; (split; [reflexivity|]); repeat split.
Qed.

Lemma keydown_space_witness :
  facesPresent (with_controllingFront false samplePage) /\
  exists p', keydown " " (with_controllingFront false samplePage) = inr (tt, p') /\
    controllingFront p' = negb (controllingFront (with_controllingFront false samplePage)) /\
    frontBorder p' = Some (if controllingFront (with_controllingFront false samplePage)
                           then "white" else "red") /\
    backBorder p' = Some (if controllingFront (with_controllingFront false samplePage)
                          then "red" else "white") /\
    clk p' = clk (with_controllingFront false samplePage) /\
    pinChecked p' = pinChecked (with_controllingFront false samplePage).
Proof.
  assert (H : facesPresent (with_controllingFront false samplePage))
    by (split; eexists; reflexivity).
  split; [exact H|exact (keydown_space _ H)].
Defined.

(** a key press never throws on a page that represents a puzzle, and
    leaves a page that represents a puzzle (pin keys set the pins, button
    keys make a move, the space bar only changes the controlled face). *)
Theorem keydown_sim p P key :
  represents p P -> facesPresent p ->
  exists p' P', keydown key p = inr (tt, p') /\ represents p' P'.
Proof.
  intros HR [[fb Hfb] [bb Hbb]]. unfold keydown. rewrite (jbind_ok _ _ p p p eq_refl).
  destruct (if controllingFront p then _ else _) as [k|]; [|by exists p, P].
  destruct (prop k pinMappings) as [arr|].
  { destruct (setPinPositions_sim p P (nth 0 arr 0) (nth 1 arr 0) (nth 2 arr 0)
                (nth 3 arr 0) HR) as (p' & Hrun & HR' & _).
    eexists _, _. split; [exact Hrun|exact HR']. }
  destruct (prop k btnMappings) as [b|] eqn:Eb.
  { apply btnMappings_btnId in Eb as (c & plus & -> & _).
    destruct (clickBtn_sim p P Front c plus HR) as (p' & Hrun & HR').
    eexists _, _. split; [exact Hrun|exact HR']. }
  destruct (decide (k = " ")); [|by exists p, P].
  cbv [toggleControllingFront setFrontBorder setBackBorder jbind jget jput jdefined jret].
  destruct p as [c0 k0 [] f0 b0 a0]; simpl in *; subst;
    (eexists _, P; split; [reflexivity|]; by eapply represents_same_state).
Qed.

End Keyboard.
