(* ===== verification/Dom.v ===== *)
(** * Dom: the document, element lookup and the script's top level

    [script.js] runs once when the page loads.  It looks up its elements
    ([getElements], [script.js] 41-66), installs the [onchange] handlers of
    the pins ([invertPins], 70-82) and the [onclick] handlers of the
    buttons (115-129), sets [controllingFront] (273), registers the
    [keydown] listener (285), raises the front pins (296) and installs the
    solve and scramble handlers (300-315).  Installing a handler on an
    element that does not exist assigns a property of [null] or
    [undefined] and throws, which stops the script there.

    This file models the document as a map from id to element,
    [getElements] as the loop that fills the [clk], [btn] and [pin]
    objects, the page the handlers then see ([pageOf]), the whole top-level
    run ([script], [loadScript]), and the button handlers' dispatch
    ([onclickTable], [click]): [el.click()] runs the handler installed on
    [el], and a back button's handler clicks another button, one stack
    frame deeper; a user event starts with [stackFrames] frames.  The
    theorems say exactly when loading throws and where, what a ready
    document loads to, and that the dispatch needs two frames and computes
    [Controls.clickBtn]. *)

From S2P Require Import Prelude Names Dial Spec Page Controls.
Import Names Dial Page Controls.

Module Dom.
Local Open Scope Z_scope.

(** The properties of an element that the script reads or writes. *)
Record Element := mkElement {
  innerHTML : string;
  checked : bool;
  borderColor : string   (** [style.borderColor] *)
}.

(** The document: [document.getElementById(id)] is [null] ([None]) for an
    id no element has. *)
Definition Document := gmap string Element.

Definition getElementById (doc : Document) (id : string) : option Element := doc !! id.

(** [getElements], [script.js] 41-47: [elements[id] = getElementById(id)]
    for every id in order; a key of the object may hold [null]. *)
Definition getElements (doc : Document) (ids : list string) : gmap string (option Element) :=
  fold_left (λ elements id, <[id := getElementById doc id]> elements) ids ∅.

(** The page the handlers see, [script.js] 61-66: [clk[id].innerHTML] and
    [pin[id].checked] exist when [clk[id]] and [pin[id]] are elements, the
    face outlines when [frontFace] and [backFace] are.  [controllingFront]
    is not yet initialised; nothing reads it before line 273. *)
Definition pageOf (doc : Document) : Page :=
  mkPage (omap (fmap innerHTML) (getElements doc clkNames))
         (omap (fmap checked) (getElements doc pinNames))
         false
         (borderColor <$> getElementById doc "frontFace")
         (borderColor <$> getElementById doc "backFace")
         [].

(** [el.onchange = ...] / [el.onclick = ...] where [el] is [obj[id]]:
    assigning a property of [null] or [undefined] throws. *)
Definition setHandler (id : string) (el : option (option Element)) : JS Page unit :=
  _ <- jdefined id (mjoin el) ;; jret tt.

(** [invertPins(pinFront, pinBack)]: the front pin's handler first. *)
Definition invertPins (pin : gmap string (option Element)) (pr : string * string)
  : JS Page unit :=
  _ <- setHandler pr.1 (pin !! pr.1) ;; setHandler pr.2 (pin !! pr.2).

(** The top-level statements of [script.js] in order. *)
Definition script (doc : Document) : JS Page unit :=
  let btn := getElements doc btnNames in
  let pin := getElements doc pinNames in
  _ <- jforeach (invertPins pin) invertPinsPairs ;;
  _ <- jforeach (λ n, setHandler n (btn !! n)) (take 8 btnNames) ;;
  _ <- jforeach (λ n, setHandler n (btn !! n)) (drop 8 btnNames) ;;
  p <- jget ;; _ <- jput (with_controllingFront true p) ;;
  _ <- setPinPositions 1 1 1 1 ;;
  _ <- setHandler "solveButton" (Some (getElementById doc "solveButton")) ;;
  setHandler "scrambleButton" (Some (getElementById doc "scrambleButton")).

Definition loadScript (doc : Document) : (exn * Page) + (unit * Page) :=
  script doc (pageOf doc).

(** The ids whose elements loading touches, in the order it touches them. *)
Definition loadOrder : list string :=
  List.concat ((λ pr, [pr.1; pr.2]) <$> invertPinsPairs) ++ btnNames ++
  ["solveButton"; "scrambleButton"].

(** A document the script can run on: every element [loadOrder] touches,
    every clock showing "01".."12", and both face outlines. *)
Definition docReady (doc : Document) : Prop :=
  (forall n, n ∈ loadOrder -> is_Some (doc !! n)) /\
  (forall f s, exists e, doc !! clkName f s = Some e /\ validDial (innerHTML e)) /\
  is_Some (doc !! "frontFace") /\ is_Some (doc !! "backFace").

(** The puzzle a ready document shows, with the front pins raised as the
    script leaves them. *)
Definition dialOfDoc (doc : Document) (f : Face) (s : Spot) : Z :=
  match doc !! clkName f s with
  | Some e => match parseInt (innerHTML e) with Int v => v | NaN => 12 end
  | None => 12
  end.

Definition puzzleOfDoc (doc : Document) : Spec.Puzzle :=
  Spec.mkPuzzle (dialOfDoc doc) (λ _, Front).

(** ** Button handlers, [script.js] 114-129 *)

(** The closure each loop installs, with the [btnName] it captured. *)
Inductive handler := FrontClick (btnName : string) | BackClick (btnName : string).

(** The [onclick] property of every button after the two loops. *)
Definition onclickTable : gmap string handler :=
  fold_left (λ m n, <[n := BackClick n]> m) (drop 8 btnNames)
    (fold_left (λ m n, <[n := FrontClick n]> m) (take 8 btnNames) ∅).

(** [btn[name].click()] with [fuel] stack frames left: the front handler
    calls [applyMove]; the back handler clicks [btn[btnName.slice(1)]],
    one frame deeper; an id that is no button is [undefined] and throws.
    An exhausted stack throws a [RangeError] as the engine does. *)
Fixpoint click (fuel : nat) (name : string) : JS Page unit :=
  match fuel with
  | O => jthrow (RangeError "Maximum call stack size exceeded")
  | S fuel' =>
      match onclickTable !! name with
      | Some (FrontClick btnName) => frontBtnClick btnName
      | Some (BackClick btnName) => click fuel' (slice_from 1 btnName)
      | None => jthrow (TypeError name)
      end
  end.

(** The stack a user event starts with: engines allow thousands of
    frames, the dispatch needs two. *)
Definition stackFrames : nat := 1000.

(** ** Lemmas *)

Definition present (doc : Document) (id : string) : bool := bool_decide (is_Some (doc !! id)).

Lemma getElements_lookup doc ids k :
  getElements doc ids !! k = if decide (k ∈ ids) then Some (doc !! k) else None.
Proof. apply (lookup_fold_insert (getElementById doc)). Qed.

Lemma setHandler_jcheck doc ids n s :
  n ∈ ids -> setHandler n (getElements doc ids !! n) s = jcheck (present doc) TypeError [n] s.
Proof.
  intros Hn. rewrite getElements_lookup, decide_True by done.
  unfold setHandler, jcheck, present, jbind, jdefined, jret, jthrow. simpl.
  by destruct (doc !! n).
Qed.

Lemma setHandler_id_jcheck doc n s :
  setHandler n (Some (getElementById doc n)) s = jcheck (present doc) TypeError [n] s.
Proof.
  unfold setHandler, jcheck, present, jbind, jdefined, jret, jthrow, getElementById. simpl.
  by destruct (doc !! n).
Qed.

Lemma pageOf_pins doc n :
  n ∈ pinNames -> pinChecked (pageOf doc) !! n = checked <$> doc !! n.
Proof.
  intros Hn. simpl. rewrite lookup_omap, getElements_lookup, decide_True by done.
  simpl. by destruct (doc !! n).
Qed.

Lemma pageOf_clk doc n :
  n ∈ clkNames -> clk (pageOf doc) !! n = innerHTML <$> doc !! n.
Proof.
  intros Hn. simpl. rewrite lookup_omap, getElements_lookup, decide_True by done.
  simpl. by destruct (doc !! n).
Qed.

(** The pin loop and the two button loops check the first twenty-four ids
    of [loadOrder]. *)
Lemma handler_loops doc s :
  (_ <- jforeach (invertPins (getElements doc pinNames)) invertPinsPairs ;;
   _ <- jforeach (λ n, setHandler n (getElements doc btnNames !! n)) (take 8 btnNames) ;;
   jforeach (λ n, setHandler n (getElements doc btnNames !! n)) (drop 8 btnNames)) s =
  jcheck (present doc) TypeError
    (List.concat ((λ pr, [pr.1; pr.2]) <$> invertPinsPairs) ++ btnNames) s.
Proof.
  assert (E : forall L : list string, L ++ btnNames = L ++ take 8 btnNames ++ drop 8 btnNames)
    by (intros L; by rewrite take_drop).
  rewrite E, <- jcheck_app.
  apply jbind_ext.
  - intros s'. apply (jforeach_jcheck _ _ (λ pr, [pr.1; pr.2])).
    intros pr s'' Hpr. unfold invertPins. rewrite <- (jcheck_app _ _ [pr.1] [pr.2]).
    assert (H12 : pr.1 ∈ pinNames /\ pr.2 ∈ pinNames)
      by (apply list_elem_of_In in Hpr; simpl in Hpr;
          repeat destruct Hpr as [<-|Hpr]; [..|done]; split; apply list_elem_of_In; simpl; tauto).
    apply jbind_ext; intros; apply setHandler_jcheck; tauto.
  - intros _ s'. rewrite <- jcheck_app. apply jbind_ext; intros;
      rewrite <- (concat_singletons (_ btnNames)) at 2;
      apply (jforeach_jcheck _ _ (λ n, [n])); intros n s'' Hn;
      apply setHandler_jcheck; [by eapply subseteq_take | by eapply subseteq_drop].
Qed.

Lemma handler_loops_then {A} doc (k : JS Page A) s :
  (_ <- jforeach (invertPins (getElements doc pinNames)) invertPinsPairs ;;
   _ <- jforeach (λ n, setHandler n (getElements doc btnNames !! n)) (take 8 btnNames) ;;
   _ <- jforeach (λ n, setHandler n (getElements doc btnNames !! n)) (drop 8 btnNames) ;;
   k) s =
  (_ <- jcheck (present doc) TypeError
          (List.concat ((λ pr, [pr.1; pr.2]) <$> invertPinsPairs) ++ btnNames) ;; k) s.
Proof.
  rewrite <- (jbind_ext _ _ (λ _, k) (λ _, k) s (handler_loops doc)) by done.
  rewrite jbind_assoc. apply jbind_ext; [done|]. intros _ s'.
  rewrite jbind_assoc. by apply jbind_ext.
Qed.

(** A successful check leaves every checked id present. *)
Lemma jcheck_None doc (L : list string) :
  list_find (λ n, present doc n = false) L = None -> forall n, n ∈ L -> is_Some (doc !! n).
Proof.
  intros HL%list_find_None n Hn. eapply Forall_forall in HL; [|exact Hn].
  unfold present in HL. case_bool_decide; [done|]. by destruct HL.
Qed.

Lemma pins_in_loadOrder n :
  n ∈ pinNames -> n ∈ List.concat ((λ pr, [pr.1; pr.2]) <$> invertPinsPairs) ++ btnNames.
Proof.
  intros Hn%list_elem_of_In. apply list_elem_of_In. simpl in *. tauto.
Qed.


Lemma onclickTable_lookup n :
  onclickTable !! n =
  if decide (n ∈ drop 8 btnNames) then Some (BackClick n)
  else if decide (n ∈ take 8 btnNames) then Some (FrontClick n) else None.
Proof.
  unfold onclickTable. rewrite (lookup_fold_insert BackClick).
  by rewrite (lookup_fold_insert FrontClick), lookup_empty.
Qed.

Lemma dom_getElements {B} doc ids (g : Element -> B) :
  (forall n, n ∈ ids -> is_Some (doc !! n)) ->
  dom (omap (fmap g) (getElements doc ids)) = list_to_set ids.
Proof.
  intros H. apply set_eq. intros n.
  rewrite elem_of_dom, lookup_omap, getElements_lookup, elem_of_list_to_set.
  case_decide as Hn; simpl.
  - destruct (H n Hn) as [e ->]. split; [done|by eexists].
  - split; [by intros []|done].
Qed.

(** After the handler loops succeed, the rest of the load: set
    [controllingFront], raise the front pins, check the two last buttons. *)
Lemma load_after_handlers doc :
  list_find (λ n, present doc n = false)
    (List.concat ((λ pr, [pr.1; pr.2]) <$> invertPinsPairs) ++ btnNames) = None ->
  exists m, loadScript doc =
    jcheck (present doc) TypeError ["solveButton"; "scrambleButton"]
      (with_pins m (with_controllingFront true (pageOf doc))) /\
    dom m = dom (pinChecked (pageOf doc)) /\
    forall f c, m !! pinName f c = Some (bool_decide (Front = f)).
Proof.
  intros E1. set (L := _ ++ btnNames) in E1.
  assert (Hc : jcheck (present doc) TypeError L (pageOf doc) = inr (tt, pageOf doc))
    by (unfold jcheck; by rewrite E1).
  set (p1 := with_controllingFront true (pageOf doc)).
  destruct (setPinPositions_ok p1 1 1 1 1) as (m & Hrun & Hdom & Hm).
  { intros n Hn. change (pinChecked p1) with (pinChecked (pageOf doc)).
    rewrite pageOf_pins by done.
    destruct (jcheck_None _ _ E1 n (pins_in_loadOrder n Hn)) as [e ->]. by eexists. }
  exists m. split_and!; [|exact Hdom|intros f c; rewrite Hm; by destruct c].
  unfold loadScript, script. cbv zeta.
  rewrite handler_loops_then, (jbind_ok _ _ _ _ _ Hc).
  rewrite (jbind_ok jget _ (pageOf doc) (pageOf doc) (pageOf doc) eq_refl).
  rewrite (jbind_ok (jput p1) _ (pageOf doc) tt p1 eq_refl), (jbind_ok _ _ _ _ _ Hrun).
  change ["solveButton"; "scrambleButton"] with (["solveButton"] ++ ["scrambleButton"]).
  rewrite <- jcheck_app. apply jbind_ext; intros; apply setHandler_id_jcheck.
Qed.

(** Loading a ready document runs to the end and leaves a page of the
    right shape that represents the document's puzzle. *)
Lemma loadScript_ready doc :
  docReady doc ->
  exists p, loadScript doc = inr (tt, p) /\ represents p (puzzleOfDoc doc) /\
    controllingFront p = true /\ pageShape p.
Proof.
  intros (Hall & Hclk & [fe Hfe] & [be Hbe]).
  assert (E1 : list_find (λ n, present doc n = false)
                 (List.concat ((λ pr, [pr.1; pr.2]) <$> invertPinsPairs) ++ btnNames) = None).
  { apply list_find_None, Forall_forall. intros n Hn.
    unfold present. rewrite bool_decide_eq_false. intros []. apply Hall.
    unfold loadOrder. rewrite app_assoc. apply elem_of_app. by left. }
  destruct (load_after_handlers doc E1) as (m & Hrun & Hdom & Hm).
  exists (with_pins m (with_controllingFront true (pageOf doc))).
  assert (E2 : list_find (λ n, present doc n = false) ["solveButton"; "scrambleButton"] = None).
  { apply list_find_None, Forall_forall. intros n Hn.
    unfold present. rewrite bool_decide_eq_false. intros []. apply Hall.
    unfold loadOrder. rewrite app_assoc. apply elem_of_app. by right. }
  split; [rewrite Hrun; unfold jcheck; by rewrite E2|].
  assert (Hc : forall f s, clk (pageOf doc) !! clkName f s = Some (dialText (dialOfDoc doc f s)) /\
                           1 <= dialOfDoc doc f s <= 12).
  { intros f s. destruct (Hclk f s) as (e & He & v & Hv & Ht).
    rewrite pageOf_clk by (apply elem_of_clkNames; eauto). unfold dialOfDoc.
    rewrite He. simpl. rewrite Ht, parseInt_dialText by done. done. }
  split_and!; [split; [|split]|done|split; [|split]].
  - intros f s. apply Hc.
  - intros f s. apply Hc.
  - intros f c. by rewrite Hm.
  - apply (dom_getElements doc clkNames innerHTML).
    intros n (f & s & ->)%elem_of_clkNames. destruct (Hclk f s) as (e & -> & _). by eexists.
  - change (pinChecked _) with m. rewrite Hdom.
    apply (dom_getElements doc pinNames checked).
    intros n Hn. apply Hall. unfold loadOrder. rewrite app_assoc. apply elem_of_app. left.
    by apply pins_in_loadOrder.
  - split; simpl; unfold getElementById; [rewrite Hfe|rewrite Hbe]; by eexists.
Qed.

(** ** Theorems *)

(** C12: loading stops at the first missing element: running [script.js] on
    a document throws a [TypeError] for the first id of [loadOrder] (the
    eight pins pairwise, the sixteen buttons, then the solve and scramble
    buttons) that no element has, and runs to the end with
    [controllingFront] set when every one of them exists.  The clocks are
    not among them: loading succeeds on a page without clock elements. *)
Theorem loadScript_result doc :
  match list_find (λ n, present doc n = false) loadOrder with
  | Some (_, n) => exists p, loadScript doc = inl (TypeError n, p)
  | None => exists p, loadScript doc = inr (tt, p) /\ controllingFront p = true
  end.
Proof.
  unfold loadOrder. rewrite app_assoc.
  destruct (list_find (λ n, present doc n = false)
              (List.concat ((λ pr, [pr.1; pr.2]) <$> invertPinsPairs) ++ btnNames))
    as [[i y]|] eqn:E1.
  { rewrite (list_find_app_l _ _ _ _ _ E1). exists (pageOf doc).
    unfold loadScript, script. cbv zeta.
    rewrite handler_loops_then. unfold jbind at 1, jcheck. by rewrite E1. }
  rewrite (list_find_app_r _ _ _ E1).
  destruct (load_after_handlers doc E1) as (m & -> & _). unfold jcheck.
  destruct (list_find (λ n, present doc n = false) ["solveButton"; "scrambleButton"])
    as [[j z]|]; by eexists.
Qed.

(** The [onclick] dispatch terminates within two stack frames: a back
    button's handler clicks its front counterpart, whose handler calls
    [applyMove] directly, so with a stack of at least two frames
    [btn[name].click()] does what [Controls.clickBtn] (the handlers
    inlined) does, on every id. *)
Lemma click_fuel (fuel : nat) n : (2 <= fuel)%nat -> click fuel n = clickBtn n.
Proof.
  intros Hf. destruct fuel as [|[|fuel]]; [lia|lia|].
  destruct (decide (n ∈ btnNames)) as [Hn|Hn].
  - apply list_elem_of_In in Hn. repeat destruct Hn as [<-|Hn]; [reflexivity..|done].
  - cbn [click]. rewrite onclickTable_lookup. unfold clickBtn.
    assert (Ht : n ∉ take 8 btnNames) by (intros H; apply Hn; by eapply subseteq_take).
    assert (Hd : n ∉ drop 8 btnNames) by (intros H; apply Hn; by eapply subseteq_drop).
    by rewrite !decide_False by done.
Qed.

End Dom.
