(* ===== verification/Session.v ===== *)
(** * Session: user events and the reachable pages

    A session starts when [script.js] has run on a ready document
    ([Dom.loadScript]: every pin and button exists, every clock shows
    "01".."12", both face outlines exist).  From then on every user action
    is one event handled to completion: a key press, a click on a pin
    checkbox, on a button (dispatched through the [onclick] table of
    [Dom.click]), on solve or on scramble (with the doubles
    [Math.random()] returns).  This file defines the step relation of the
    session and proves by induction on reachability that every reachable
    page represents a puzzle of [Spec] with exactly its eighteen clocks,
    eight pins and two outlines, that no possible event throws, what
    loading does on any ready document, what a move on a non-corner does,
    and that every pin setting is one key away. *)

From S2P Require Import Prelude Names Dial Spec Page Controls Keyboard Dom.
Import Names Dial Page Controls Keyboard.

Module Session.
Local Open Scope Z_scope.

(** The document as the HTML delivers it (the markup is not part of
    [src/]): every clock, pin and button exists, every clock shows "12", no
    pin is checked, the front face is outlined in red. *)
Definition initialDoc : Dom.Document :=
  list_to_map ((λ n, (n, Dom.mkElement "12" false "")) <$> clkNames) ∪
  list_to_map ((λ n, (n, Dom.mkElement "" false "")) <$>
                 (pinNames ++ btnNames ++ ["solveButton"; "scrambleButton"])) ∪
  list_to_map [("frontFace", Dom.mkElement "" false "red");
               ("backFace", Dom.mkElement "" false "white")].

Inductive event : Type :=
| KeyDown (key : string)
| ClickPin (pinName : string)
| ClickBtn (btnName : string)
| ClickSolve
| ClickScramble (rnd : nat -> double).

Definition handle (e : event) : JS Page unit :=
  match e with
  | KeyDown key => keydown key
  | ClickPin n => clickPin n
  | ClickBtn n => Dom.click Dom.stackFrames n
  | ClickSolve => solveClick
  | ClickScramble rnd => scrambleClick rnd
  end.

(** What the user can do: click an element that exists, with
    [Math.random()] returning doubles in [0, 1). *)
Definition possible (e : event) : Prop :=
  match e with
  | ClickPin n => n ∈ pinNames
  | ClickBtn n => n ∈ btnNames
  | ClickScramble rnd => forall i, randomDouble (rnd i)
  | _ => True
  end.

Inductive step : Page -> event -> Page -> Prop :=
| step_handle p e p' : possible e -> handle e p = inr (tt, p') -> step p e p'.

(** A session starts from any document the script can run on. *)
Inductive reachable : Page -> Prop :=
| reach_load doc p : Dom.docReady doc -> Dom.loadScript doc = inr (tt, p) -> reachable p
| reach_step p e p' : reachable p -> step p e p' -> reachable p'.

(** The puzzle the loaded page represents: all dials at 12, front pins. *)
Definition solvedFront : Spec.Puzzle := Spec.mkPuzzle (λ _ _, 12) (λ _, Front).

(** The double nearest 1/12, whose product by 12 rounds to 1. *)
Definition twelfth : double := mkDouble 6004799503160661 (-56).

(** ** Lemmas *)

Lemma elem_of_btnNames n : n ∈ btnNames -> exists f c plus, n = btnId f c plus.
Proof.
  rewrite btnNames_enum, list_elem_of_fmap. intros [[[f c] plus] [-> _]]. eauto.
Qed.

(** Every possible event, on a page that represents a puzzle, runs to
    completion and leaves a page that represents a puzzle. *)
Lemma handle_refines p P e :
  represents p P -> facesPresent p -> possible e ->
  exists p' P', handle e p = inr (tt, p') /\ represents p' P'.
Proof.
  intros HR Hf He. destruct e as [key|n|n| |rnd]; cbn [handle possible] in *.
  - exact (keydown_sim p P key HR Hf).
  - apply elem_of_pinNames in He as (f & c & ->).
    destruct (clickPin_sim p P f c HR) as (p' & ? & ? & _). eauto.
  - rewrite Dom.click_fuel by (unfold Dom.stackFrames; lia).
    apply elem_of_btnNames in He as (f & c & plus & ->).
    destruct (clickBtn_sim p P f c plus HR) as (p' & ? & ?). eauto.
  - destruct (solveClick_sim p P HR) as (p' & ? & ? & _). eauto.
  - destruct (scrambleClick_sim p P rnd HR He) as (p' & ? & ? & _). eauto.
Qed.

(** ** Theorems *)

(** No handler adds or removes an element, whether it returns or throws. *)
Lemma handle_shape e : preserves sameShape (handle e).
Proof.
  destruct e; cbn [handle]; try rewrite Dom.click_fuel by (unfold Dom.stackFrames; lia);
    eauto with preserves.
Qed.

Lemma initialDoc_ready : Dom.docReady initialDoc.
Proof.
  split_and!.
  - apply Forall_forall. apply (bool_decide_eq_true_1 (Forall _ _)). vm_compute. reflexivity.
  - intros f s. eexists. split; [destruct f, s; vm_compute; reflexivity|].
    exists 12. split; [lia|reflexivity].
  - eexists. vm_compute. reflexivity.
  - eexists. vm_compute. reflexivity.
Qed.

(** the session invariant: every reachable page represents a puzzle
    (every clock shows a value in 1..12 as [padTime] writes it, and at
    every corner exactly one of the two pins is checked) and has exactly
    the clock, pin and face elements. *)
Lemma reachable_inv_shape p : reachable p -> (exists P, represents p P) /\ pageShape p.
Proof.
  induction 1 as [doc p Hready Hload|p e p' _ [[P HR] Hs] Hstep].
  - destruct (Dom.loadScript_ready doc Hready) as (p0 & Hrun & HR & _ & Hs).
    rewrite Hrun in Hload. injection Hload as <-. split; [by eexists|done].
  - destruct Hstep as [p e p' He Hrun].
    destruct (handle_refines p P e HR (proj2 (proj2 Hs)) He) as (p'' & P' & Hrun' & HR').
    rewrite Hrun in Hrun'. injection Hrun' as <-. split; [by exists P'|].
    apply (sameShape_pageShape p); [|done].
    destruct (handle_shape e) as [H]. specialize (H p). by rewrite Hrun in H.
Qed.

Lemma reachable_inv p : reachable p -> exists P, represents p P.
Proof. intros H. apply (reachable_inv_shape p H). Qed.

(** A reachable page has no pin but the eight of [pinNames]. *)
Lemma reachable_pin_None p n : reachable p -> n ∉ pinNames -> pinChecked p !! n = None.
Proof.
  intros [_ (_ & Hdom & _)]%reachable_inv_shape Hn.
  apply not_elem_of_dom. by rewrite Hdom, elem_of_list_to_set.
Qed.

(** C4: no event the user can cause on a reachable page throws: every
    possible event has a step. *)
Theorem reachable_step p e :
  reachable p -> possible e -> exists p', step p e p'.
Proof.
  intros [[P HR] (_ & _ & Hf)]%reachable_inv_shape He.
  destruct (handle_refines p P e HR Hf He) as (p' & _ & Hrun & _).
  exists p'. by constructor.
Qed.

(** C5: pin complementarity (spec 8): on every reachable page, at every
    corner, the front and the back checkbox exist and exactly one of them
    is checked. *)
Corollary reachable_pins_complementary p c :
  reachable p ->
  exists b, pinChecked p !! pinName Front c = Some b /\
            pinChecked p !! pinName Back c = Some (negb b).
Proof.
  intros [P (_ & _ & Hp)]%reachable_inv.
  exists (bool_decide (Spec.pins P c = Front)). rewrite !Hp.
  split; [done|]. by destruct (Spec.pins P c).
Qed.

(** The page right after loading, evaluated. *)
Definition loadedPage : Page :=
  Eval vm_compute in
    match Dom.loadScript initialDoc with inr (_, p) => p | inl (_, p) => p end.

(** C31: loading the script on any ready document makes the puzzle
    playable as the document shows it: it does not throw, the page controls
    the front, the four front pins are checked and the four back pins not,
    every clock keeps the text the document gives it, and [isSolved] tells
    whether the document's eighteen dials are all at 12. *)
Theorem load_represents doc :
  Dom.docReady doc ->
  exists p0, Dom.loadScript doc = inr (tt, p0) /\ controllingFront p0 = true /\
    (forall c, pinChecked p0 !! pinName Front c = Some true /\
               pinChecked p0 !! pinName Back c = Some false) /\
    (forall f s e, doc !! clkName f s = Some e -> clk p0 !! clkName f s = Some (Dom.innerHTML e)) /\
    isSolved p0 = inr (Spec.isSolved (Dom.puzzleOfDoc doc), p0).
Proof.
  intros Hready.
  destruct (Dom.loadScript_ready doc Hready) as (p0 & Hrun & HR & Hcf & _).
  exists p0. split_and!; [done|done| | |].
  - destruct HR as (_ & _ & Hp). intros c. rewrite !Hp. split; reflexivity.
  - intros f s e He. destruct HR as (_ & Hc & _). rewrite Hc. cbn [Spec.dial Dom.puzzleOfDoc].
    destruct Hready as (_ & Hclk & _). destruct (Hclk f s) as (e' & He' & v & Hv & Ht).
    rewrite He in He'. injection He' as <-. unfold Dom.dialOfDoc. rewrite He, Ht.
    by rewrite parseInt_dialText.
  - apply (isSolved_represents _ _ HR).
Qed.

Lemma load_represents_witness :
  Dom.docReady initialDoc /\
  exists p0, Dom.loadScript initialDoc = inr (tt, p0) /\ controllingFront p0 = true /\
    (forall c, pinChecked p0 !! pinName Front c = Some true /\
               pinChecked p0 !! pinName Back c = Some false) /\
    (forall f s e, initialDoc !! clkName f s = Some e -> clk p0 !! clkName f s = Some (Dom.innerHTML e)) /\
    isSolved p0 = inr (Spec.isSolved (Dom.puzzleOfDoc initialDoc), p0).
Proof. split; [exact initialDoc_ready|exact (load_represents initialDoc initialDoc_ready)]. Defined.

(** C3: The session invariant: every reachable page represents a puzzle, so
    every clock exists and shows one of "01".."12". *)
Theorem reachable_represents p :
  reachable p ->
  exists P, represents p P /\
    forall n, n ∈ clkNames -> exists t, clk p !! n = Some t /\ validDial t.
Proof.
  intros [P HR]%reachable_inv. exists P. split; [done|].
  intros n (f & s & ->)%elem_of_clkNames. destruct HR as (HV & Hc & _).
  eexists; split; [apply Hc|]. exists (Spec.dial P f s). split; [apply HV|done].
Qed.

Lemma reachable_loadedPage : reachable loadedPage.
Proof. apply (reach_load initialDoc); [exact initialDoc_ready|vm_compute; reflexivity]. Qed.

(** The loaded page after a click on the front pin of corner UL. *)
Definition pulDownPage : Page := Eval vm_compute in result_state (clickPin "pul" loadedPage).

Lemma reachable_pulDownPage : reachable pulDownPage.
Proof.
  apply (reach_step loadedPage (ClickPin "pul")); [exact reachable_loadedPage|].
  constructor; [apply list_elem_of_In; simpl; tauto|vm_compute; reflexivity].
Qed.

Lemma reachable_step_witness :
  (reachable loadedPage /\ possible (ClickBtn "bulp")) /\
  exists p', step loadedPage (ClickBtn "bulp") p'.
Proof.
  pose proof reachable_loadedPage as R.
  assert (Hp : possible (ClickBtn "bulp")) by (apply list_elem_of_In; simpl; tauto).
  split; [split; [exact R|exact Hp]|exact (reachable_step loadedPage (ClickBtn "bulp") R Hp)].
Defined.

Lemma reachable_represents_witness :
  reachable loadedPage /\
  exists P, represents loadedPage P /\
    forall n, n ∈ clkNames -> exists t, clk loadedPage !! n = Some t /\ validDial t.
Proof.
  pose proof reachable_loadedPage as R.
  split; [exact R|exact (reachable_represents loadedPage R)].
Defined.

Lemma reachable_pins_complementary_witness :
  reachable loadedPage /\
  exists b, pinChecked loadedPage !! pinName Front DL = Some b /\
            pinChecked loadedPage !! pinName Back DL = Some (negb b).
Proof.
  pose proof reachable_loadedPage as R.
  split; [exact R|exact (reachable_pins_complementary loadedPage DL R)].
Defined.

(** C6: On every reachable page each of the sixteen buttons works: it does not
    throw and makes the abstract move of its corner in its direction, a
    back button the same move as its front counterpart. *)
Theorem reachable_press p :
  reachable p ->
  exists P, represents p P /\
    forall f c plus, exists p', clickBtn (btnId f c plus) p = inr (tt, p') /\
      represents p' (Spec.applyMove P c (btnDir plus)).
Proof.
  intros [P HR]%reachable_inv. exists P. split; [done|].
  intros f c plus. exact (clickBtn_sim p P f c plus HR).
Qed.

Lemma reachable_press_witness :
  reachable loadedPage /\
  exists P, represents loadedPage P /\
    forall f c plus, exists p', clickBtn (btnId f c plus) loadedPage = inr (tt, p') /\
      represents p' (Spec.applyMove P c (btnDir plus)).
Proof.
  pose proof reachable_loadedPage as R.
  split; [exact R|exact (reachable_press loadedPage R)].
Defined.

(** C7: On every reachable page a click on either pin of a corner flips that
    corner's pin pair and leaves every clock as it was. *)
Theorem reachable_clickPin p :
  reachable p ->
  exists P, represents p P /\
    forall f c, exists p', clickPin (pinName f c) p = inr (tt, p') /\
      represents p' (Spec.flipPin P c) /\ clk p' = clk p.
Proof.
  intros [P HR]%reachable_inv. exists P. split; [done|].
  intros f c. exact (clickPin_sim p P f c HR).
Qed.

Lemma reachable_clickPin_witness :
  reachable loadedPage /\
  exists P, represents loadedPage P /\
    forall f c, exists p', clickPin (pinName f c) loadedPage = inr (tt, p') /\
      represents p' (Spec.flipPin P c) /\ clk p' = clk loadedPage.
Proof.
  pose proof reachable_loadedPage as R.
  split; [exact R|exact (reachable_clickPin loadedPage R)].
Defined.

(** C8: The solve shortcut (spec 4.2 [resetAll]) works on every reachable page
    and leaves a page on which [isSolved] holds. *)
Theorem reachable_solve p :
  reachable p ->
  exists p', solveClick p = inr (tt, p') /\ isSolved p' = inr (true, p').
Proof.
  intros [P HR]%reachable_inv. destruct (solveClick_sim p P HR) as (p' & Hrun & HR' & _).
  exists p'. split; [done|]. by rewrite (isSolved_represents _ _ HR').
Qed.

Lemma reachable_solve_witness :
  reachable loadedPage /\
  exists p', solveClick loadedPage = inr (tt, p') /\ isSolved p' = inr (true, p').
Proof.
  pose proof reachable_loadedPage as R.
  split; [exact R|exact (reachable_solve loadedPage R)].
Defined.

(** C9: The scramble shortcut (spec 4.2 [randomizeAll]) works on every
    reachable page when every [Math.random()] call returns a double in
    [0, 1): each clock then shows [Math.floor(r * 12) + 1] for its own draw
    [r], with the product rounded to the nearest double, a value in 1..12. *)
Theorem reachable_scramble p (rnd : nat -> double) :
  reachable p -> (forall i, randomDouble (rnd i)) ->
  exists p', scrambleClick rnd p = inr (tt, p') /\
    forall f s, clk p' !! clkName f s = Some (dialText (randomTime (rnd (dialIndex f s)))) /\
                1 <= randomTime (rnd (dialIndex f s)) <= 12.
Proof.
  intros [P HR]%reachable_inv Hrnd.
  destruct (scrambleClick_sim p P rnd HR Hrnd) as (p' & Hrun & (HV & Hc & _) & _).
  exists p'. split; [done|]. intros f s. split; [apply Hc|apply HV].
Qed.

Lemma reachable_scramble_witness :
  (reachable loadedPage /\ (forall i, randomDouble ((λ _ : nat, twelfth) i))) /\
  randomTime twelfth = 2 /\
  exists p', scrambleClick (λ _, twelfth) loadedPage = inr (tt, p') /\
    forall f s, clk p' !! clkName f s = Some (dialText (randomTime ((λ _ : nat, twelfth) (dialIndex f s)))) /\
                1 <= randomTime ((λ _ : nat, twelfth) (dialIndex f s)) <= 12.
Proof.
  pose proof reachable_loadedPage as R.
  assert (H : forall i, randomDouble ((λ _ : nat, twelfth) i))
    by (intros i; unfold randomDouble; simpl; lia).
  split; [split; [exact R|exact H]|split; [reflexivity|exact (reachable_scramble loadedPage _ R H)]].
Defined.

(** C15: a move on a corner that does not exist fails before changing
    anything (spec 7): on every reachable page, [applyMove] with a string
    that is not one of "ul", "ur", "dr", "dl" throws a [TypeError] on
    [pin["p" + corner]] and leaves the page as it was. *)
Theorem applyMove_invalid_corner p corner d :
  reachable p -> corner ∉ cornerTag <$> [UL; UR; DR; DL] ->
  String.append "p" corner ∉ objectPrototypeNames ->
  applyMove corner d p = inl (TypeError (String.append "p" corner), p).
Proof.
  intros Hr Hc Hproto.
  assert (Hn : pinChecked p !! String.append "p" corner = None).
  { apply (reachable_pin_None p _ Hr). intros H%list_elem_of_In. apply Hc, list_elem_of_In.
    simpl in *. repeat destruct H as [H|H]; first [discriminate H | injection H as ->; tauto | done]. }
  unfold applyMove. apply jbind_err. unfold getActiveNeighbors. apply jbind_err.
  cbv [isChecked jbind jget]. rewrite Hn. by rewrite decide_False.
Qed.

Lemma applyMove_invalid_corner_witness :
  (reachable loadedPage /\ ("xx" ∉ cornerTag <$> [UL; UR; DR; DL]) /\
   "pxx" ∉ objectPrototypeNames) /\
  applyMove "xx" 1 loadedPage = inl (TypeError "pxx", loadedPage).
Proof.
  pose proof reachable_loadedPage as R.
  assert (H : "xx" ∉ cornerTag <$> [UL; UR; DR; DL])
    by (intros H%list_elem_of_In; simpl in H; repeat destruct H as [H|H]; done).
  assert (H' : "pxx" ∉ objectPrototypeNames) by (apply (bool_decide_unpack _); reflexivity).
  split; [split_and!; [exact R|exact H|exact H']|exact (applyMove_invalid_corner loadedPage "xx" 1 R H H')].
Defined.

(** C23: the string "ropertyIsEnumerable" acts as a corner: [pin] is a
    plain object, so [pin["p" + "ropertyIsEnumerable"]] is the method
    [Object.prototype.propertyIsEnumerable], whose [checked] is
    [undefined].  On every reachable page a move on it does not throw: it
    reads as an unchecked front pin and makes exactly the move of any
    corner whose front pin is unchecked. *)
Theorem applyMove_prototype_corner p corner d :
  reachable p -> pinChecked p !! String.append "p" corner = Some false ->
  applyMove "ropertyIsEnumerable" d p = applyMove corner d p.
Proof.
  intros Hr Hc.
  assert (Hp : isChecked (String.append "p" "ropertyIsEnumerable") p = inr (false, p)).
  { cbv [isChecked jbind jget]. rewrite (reachable_pin_None p _ Hr) by
      (intros H%list_elem_of_In; simpl in H; repeat destruct H as [H|H]; done).
    by rewrite decide_True by (apply list_elem_of_In; simpl; tauto). }
  unfold applyMove, getActiveNeighbors. rewrite !jbind_assoc.
  by rewrite (jbind_ok _ _ _ _ _ Hp), (jbind_ok _ _ _ _ _ (isChecked_ok _ _ _ Hc)).
Qed.

Lemma applyMove_prototype_corner_witness :
  (reachable pulDownPage /\ pinChecked pulDownPage !! String.append "p" "ul" = Some false) /\
  applyMove "ropertyIsEnumerable" 1 pulDownPage = applyMove "ul" 1 pulDownPage.
Proof.
  pose proof reachable_pulDownPage as R.
  assert (H : pinChecked pulDownPage !! String.append "p" "ul" = Some false)
    by (vm_compute; reflexivity).
  split; [split; [exact R|exact H]|exact (applyMove_prototype_corner pulDownPage "ul" 1 R H)].
Defined.

(** C20: every pin setting is one key press away (liveness of the pin
    controls): on every reachable page, for each of the sixteen settings of
    the four pin pairs, some key sets exactly that setting, whichever face
    is being controlled, and leaves the clocks as they were. *)
Theorem reachable_pin_keys p :
  reachable p ->
  exists P, represents p P /\
    forall ul ur dr dl, exists key p', step p (KeyDown key) p' /\
      represents p' (Spec.mkPuzzle (Spec.dial P) (Spec.pinsOf ul ur dr dl)).
Proof.
  intros [P HR]%reachable_inv. exists P. split; [done|]. intros ul ur dr dl.
  destruct (keydown_pin_key p P ul ur dr dl HR) as (key & p' & Hrun & HR').
  exists key, p'. split; [by constructor|done].
Qed.

Lemma reachable_pin_keys_witness :
  reachable loadedPage /\
  exists P, represents loadedPage P /\
    forall ul ur dr dl, exists key p', step loadedPage (KeyDown key) p' /\
      represents p' (Spec.mkPuzzle (Spec.dial P) (Spec.pinsOf ul ur dr dl)).
Proof.
  pose proof reachable_loadedPage as R.
  split; [exact R|exact (reachable_pin_keys loadedPage R)].
Defined.

End Session.
